(** * Pressure-correction schemes for the incompressible Navier--Stokes
      equations: a shallow embedding of
      [flow/navier_stokes/pressure_correction.py].

    The module composes three sub-solves (tentative velocity, pressure
    Poisson problem, velocity correction).  Everything numerical is delegated
    to dolfin/UFL/PETSc; what the module itself decides is

    - which variational forms are built,
    - which solver is called with which parameters, in which order,
    - which [Function] objects are allocated and written,
    - which preconditions are asserted.

    The embedding therefore has three layers:

    - the UFL objects the module builds, as syntax trees ([scal], [expr],
      [form]), with Python's operator precedence written out;
    - a denotation of these trees in an arbitrary finite-element backend
      ([Backend]): exact arithmetic on the scalars, linear differential
      operators and integrals on the fields;
    - the module's functions in a state-and-exception monad [M] over the
      store of [Function] coefficient vectors, the global PETSc options and
      a log of the calls made to the external solvers.

    Python floats that occur in the module are decimal literals and values
    that are only compared and passed on; they are embedded as canonical
    rationals [Qc].

    The Stokes solver of [flow/stokes.py] is embedded in the same way in
    [Module Stokes], on a mixed velocity--pressure space. *)

From Stdlib Require Import QArith Qcanon.
From stdpp Require Import gmap strings list fin_maps numbers.

Local Open Scope Qc_scope.

(** ** Python values *)

(** A decimal literal [m / 10^k]. *)
Definition decimal (m : Z) (k : Z) : Qc := Q2Qc (m # Z.to_pos (10 ^ k)).

Inductive exn :=
| AssertionError      (* a failed [assert] *)
| KeyError            (* [d[k]] on a missing key *)
| TypeError           (* [Function(None)] *)
| UFLException        (* a UFL operator applied to [None] *)
| RuntimeError.       (* dolfin: a solver did not converge *)

Inductive result (A : Type) :=
| Ok (a : A)
| Raise (e : exn).
Arguments Ok {A} a.
Arguments Raise {A} e.

#[global] Instance result_ret : MRet result := @Ok.
#[global] Instance result_bind : MBind result :=
  λ A C k r, match r with Ok a => k a | Raise e => Raise e end.

(** [assert b]. *)
Definition py_assert (b : bool) : result unit :=
  if b then Ok tt else Raise AssertionError.

(** [d[k]]. *)
Definition getitem {A} (d : gmap Z A) (k : Z) : result A :=
  match d !! k with
  | Some a => Ok a
  | None => Raise KeyError
  end.

(** Truth value of an optional list ([if p_bcs:]): [None] and the empty list
    are false. *)
Definition truthy {A} (o : option (list A)) : bool :=
  match o with
  | Some (_ :: _) => true
  | _ => false
  end.

(** ** dolfin objects *)

Record Mesh := mkMesh { mesh_id : nat; topological_dimension : nat }.
Record FunctionSpace := mkFunctionSpace { space_id : nat; mesh : Mesh }.

(** A [Function] is a Python object: a location in the store of coefficient
    vectors, together with its function space. *)
Record Function := mkFunction { fn_loc : nat; function_space : FunctionSpace }.

(** [TestFunction(V)] has number 0, [TrialFunction(V)] number 1. *)
Record Argument := mkArgument { arg_space : FunctionSpace; arg_number : nat }.
Definition TestFunction (V : FunctionSpace) : Argument := mkArgument V 0.
Definition TrialFunction (V : FunctionSpace) : Argument := mkArgument V 1.

(** A scalar [Constant]; [values0 c] is [c.values()[0]]. *)
Record Constant := mkConstant { values0 : Qc }.

(** Dirichlet boundary conditions are opaque handles. *)
Record DirichletBC := mkDirichletBC { bc_id : nat }.

(** ** UFL syntax *)

(** Products and quotients of numbers and [Constant]s. *)
Inductive scal :=
| SNum (x : Qc)
| SConst (c : Constant)
| SMul (a b : scal)
| SDiv (a b : scal).

(** Pointwise expressions. *)
Inductive expr :=
| Coef (u : Function)
| Arg (a : Argument)
| FacetNormal (m : Mesh)
| Identity (d : nat)
| Scale (s : scal) (e : expr)        (* [s * e], [s] a number or constant *)
| Mul (a b : expr)                   (* [a * b] *)
| Add (a b : expr)
| Sub (a b : expr)
| Grad (e : expr)
| Div (e : expr)
| Transp (e : expr)                  (* [e.T] *)
| Inner (a b : expr)
| Dot (a b : expr).

(** Forms: integrals over the domain ([* dx]) and its boundary ([* ds]). *)
Inductive form :=
| Dx (e : expr)
| Ds (e : expr)
| FAdd (a b : form)
| FSub (a b : form)
| FScale (s : scal) (a : form).

(** [derivative(F, u)]. *)
Record GateauxDerivative := derivative { d_form : form; d_wrt : Function }.

(** ** Solver parameters *)

(** The ['newton_solver'] dictionary. *)
Record newton_solver_parameters := mkNewtonParameters {
  n_maximum_iterations : Z;
  n_report : bool;
  n_absolute_tolerance : Qc;
  n_relative_tolerance : Qc;
  n_error_on_nonconvergence : bool }.

Record nonlinear_solver_parameters := mkNonlinearParameters {
  nonlinear_solver : string;
  newton_solver : newton_solver_parameters }.

(** The ['krylov_solver'] dictionary, and the [parameters] of a
    [PETScKrylovSolver]. *)
Record krylov_solver_parameters := mkKrylovParameters {
  relative_tolerance : Qc;
  absolute_tolerance : Qc;
  maximum_iterations : Z;
  monitor_convergence : bool;
  error_on_nonconvergence : bool }.

Record linear_solver_parameters := mkLinearParameters {
  linear_solver : string;
  symmetric : bool;
  preconditioner : string;
  krylov_solver : krylov_solver_parameters }.

Definition set_absolute_tolerance (x : Qc) (p : krylov_solver_parameters) :=
  mkKrylovParameters (relative_tolerance p) x (maximum_iterations p)
    (monitor_convergence p) (error_on_nonconvergence p).
Definition set_relative_tolerance (x : Qc) (p : krylov_solver_parameters) :=
  mkKrylovParameters x (absolute_tolerance p) (maximum_iterations p)
    (monitor_convergence p) (error_on_nonconvergence p).
Definition set_maximum_iterations (n : Z) (p : krylov_solver_parameters) :=
  mkKrylovParameters (relative_tolerance p) (absolute_tolerance p) n
    (monitor_convergence p) (error_on_nonconvergence p).
Definition set_monitor_convergence (b : bool) (p : krylov_solver_parameters) :=
  mkKrylovParameters (relative_tolerance p) (absolute_tolerance p)
    (maximum_iterations p) b (error_on_nonconvergence p).
Definition set_error_on_nonconvergence (b : bool) (p : krylov_solver_parameters) :=
  mkKrylovParameters (relative_tolerance p) (absolute_tolerance p)
    (maximum_iterations p) (monitor_convergence p) b.

(** ** The finite-element backend *)

(** Fields of a backend: a type [E] of discretised fields with the pointwise
    operations of UFL, the two integrals, and the three solvers.  Assembled
    bilinear and linear forms are handed to the linear solvers as the
    functions they are on the trial and test fields.  A solver returns its
    last iterate and whether it converged. *)
Record Backend := mkBackend {
  E : Type;
  zeroE : E;
  addE : E → E → E;
  subE : E → E → E;
  scaleE : Qc → E → E;
  mulE : E → E → E;
  gradE : E → E;
  divE : E → E;
  transpE : E → E;
  innerE : E → E → E;
  dotE : E → E → E;
  normalE : Mesh → E;
  identityE : nat → E;
  intdx : E → Qc;
  intds : E → Qc;
  krylov_default_parameters : krylov_solver_parameters;
  newton :
    gmap nat E → form → Function → list DirichletBC → GateauxDerivative →
    nonlinear_solver_parameters → E * bool;
  linear_variational_solve :
    (E → E → Qc) → (E → Qc) → list DirichletBC →
    linear_solver_parameters → E * bool;
  petsc_krylov_solve :
    gmap string string → string → string → krylov_solver_parameters →
    (E → E → Qc) → E → (E → Qc) → E * bool }.

(** ** Denotation of UFL syntax, store and monad *)

Section Model.

Variable B : Backend.

(** Values of the coefficient [Function]s, of the trial and of the test
    function. *)
Record env := mkEnv {
  e_store : gmap nat (E B);
  e_trial : E B;
  e_test : E B }.

(** A [Function] never written holds the zero vector. *)
Definition value (σ : gmap nat (E B)) (u : Function) : E B :=
  default (zeroE B) (σ !! fn_loc u).

Fixpoint sden (s : scal) : Qc :=
  match s with
  | SNum x => x
  | SConst c => values0 c
  | SMul a b => sden a * sden b
  | SDiv a b => sden a / sden b
  end.

Fixpoint eden (ρ : env) (e : expr) : E B :=
  match e with
  | Coef u => value (e_store ρ) u
  | Arg a => match arg_number a with O => e_test ρ | S _ => e_trial ρ end
  | FacetNormal m => normalE B m
  | Identity d => identityE B d
  | Scale s a => scaleE B (sden s) (eden ρ a)
  | Mul a b => mulE B (eden ρ a) (eden ρ b)
  | Add a b => addE B (eden ρ a) (eden ρ b)
  | Sub a b => subE B (eden ρ a) (eden ρ b)
  | Grad a => gradE B (eden ρ a)
  | Div a => divE B (eden ρ a)
  | Transp a => transpE B (eden ρ a)
  | Inner a b => innerE B (eden ρ a) (eden ρ b)
  | Dot a b => dotE B (eden ρ a) (eden ρ b)
  end.

Fixpoint fden (ρ : env) (F : form) : Qc :=
  match F with
  | Dx e => intdx B (eden ρ e)
  | Ds e => intds B (eden ρ e)
  | FAdd a b => fden ρ a + fden ρ b
  | FSub a b => fden ρ a - fden ρ b
  | FScale s a => sden s * fden ρ a
  end.

(** [assemble(a)] for a bilinear and [assemble(L)] for a linear form. *)
Definition assemble_matrix (σ : gmap nat (E B)) (a : form) : E B → E B → Qc :=
  λ p q, fden (mkEnv σ p q) a.
Definition assemble_vector (σ : gmap nat (E B)) (L : form) : E B → Qc :=
  λ q, fden (mkEnv σ (zeroE B) q) L.

(** Calls that leave the module, each with what the solver reported.  A
    linear solver is logged with the assembled system it received. *)
Inductive event :=
| EvMessage (enter : bool) (text : string)
| EvNewtonSolve (F : form) (u : Function) (bcs : list DirichletBC)
    (J : GateauxDerivative) (p : nonlinear_solver_parameters) (guess : E B)
    (converged : bool)
| EvLinearSolve (A : E B → E B → Qc) (b : E B → Qc) (u : Function)
    (bcs : list DirichletBC) (p : linear_solver_parameters) (converged : bool)
| EvKrylovSolve (method prec : string) (p : krylov_solver_parameters)
    (A : E B → E B → Qc) (x : Function) (b : E B → Qc) (converged : bool).

Definition is_solve (ev : event) : bool :=
  match ev with
  | EvMessage _ _ => false
  | _ => true
  end.

(** The sub-solves attempted in a log. *)
Definition solves (tr : list event) : list event := filter is_solve tr.

Record world := mkWorld {
  store : gmap nat (E B);
  petsc_options : gmap string string;
  trace : list event }.

Definition M (A : Type) : Type := world → result A * world.

Definition ret {A} (a : A) : M A := λ w, (Ok a, w).
Definition bind {A C} (m : M A) (k : A → M C) : M C :=
  λ w, match m w with
       | (Ok a, w') => k a w'
       | (Raise e, w') => (Raise e, w')
       end.
Definition raise {A} (e : exn) : M A := λ w, (Raise e, w).

#[local] Instance M_ret : MRet M := @ret.
#[local] Instance M_bind : MBind M := λ A C k m, bind m k.

(** Computations that only return or raise. *)
Definition lift {A} (r : result A) : M A := λ w, (r, w).

Definition log (ev : event) : M unit :=
  λ w, (Ok tt, mkWorld (store w) (petsc_options w) (trace w ++ [ev])).

(** [Function(V)]: a new object with zero coefficients. *)
Definition new_Function (V : FunctionSpace) : M Function :=
  λ w, let l := fresh (dom (store w)) in
       (Ok (mkFunction l V),
        mkWorld (<[l := zeroE B]> (store w)) (petsc_options w) (trace w)).

Definition write (u : Function) (x : E B) : M unit :=
  λ w, (Ok tt, mkWorld (<[fn_loc u := x]> (store w)) (petsc_options w) (trace w)).

Definition get_store : M (gmap nat (E B)) := λ w, (Ok (store w), w).
Definition get_petsc_options : M (gmap string string) :=
  λ w, (Ok (petsc_options w), w).

(** [dst.assign(src)]. *)
Definition assign (dst src : Function) : M unit :=
  σ ← get_store; write dst (value σ src).

(** [PETScOptions.set(key, val)]. *)
Definition PETScOptions_set (key val : string) : M unit :=
  λ w, (Ok tt, mkWorld (store w) (<[key := val]> (petsc_options w)) (trace w)).

(** Modelled from the spec: the [Message] context manager of [flow/message.py]
    (imported by the module, not part of the sources) announces an operation
    and guarantees the exit notification on every return and error path; an
    exception raised by the body propagates. *)
Definition with_Message {A} (text : string) (body : M A) : M A :=
  λ w, match body (mkWorld (store w) (petsc_options w)
                     (trace w ++ [EvMessage true text])) with
       | (r, w') =>
           (r, mkWorld (store w') (petsc_options w')
                 (trace w' ++ [EvMessage false text]))
       end.

(** dolfin's [solve(F == 0, u, bcs=bcs, J=J, solver_parameters=p)]: the
    solver starts from the coefficients of [u] and overwrites them; with
    [error_on_nonconvergence] a failure to converge is an error.  The call is
    logged together with the solver's report. *)
Definition solve_nonlinear (F : form) (u : Function) (bcs : list DirichletBC)
    (J : GateauxDerivative) (p : nonlinear_solver_parameters) : M unit :=
  σ ← get_store;
  let '(x, converged) := newton B σ F u bcs J p in
  log (EvNewtonSolve F u bcs J p (value σ u) converged);;
  write u x;;
  if converged || negb (n_error_on_nonconvergence (newton_solver p))
  then ret tt else raise RuntimeError.

(** dolfin's [solve(a == L, u, bcs=bcs, solver_parameters=p)]. *)
Definition solve_linear (a L : form) (u : Function) (bcs : list DirichletBC)
    (p : linear_solver_parameters) : M unit :=
  σ ← get_store;
  let A := assemble_matrix σ a in
  let b := assemble_vector σ L in
  let '(x, converged) := linear_variational_solve B A b bcs p in
  log (EvLinearSolve A b u bcs p converged);;
  write u x;;
  if converged || negb (error_on_nonconvergence (krylov_solver p))
  then ret tt else raise RuntimeError.

(** A [PETScKrylovSolver] object. *)
Record PETScKrylovSolver := mkPETScKrylovSolver {
  ks_method : string;
  ks_preconditioner : string;
  parameters : krylov_solver_parameters;
  operator : option (E B → E B → Qc) }.

Definition new_PETScKrylovSolver (method prec : string) : PETScKrylovSolver :=
  mkPETScKrylovSolver method prec (krylov_default_parameters B) None.

Definition set_parameters
    (f : krylov_solver_parameters → krylov_solver_parameters)
    (s : PETScKrylovSolver) : PETScKrylovSolver :=
  mkPETScKrylovSolver (ks_method s) (ks_preconditioner s) (f (parameters s))
    (operator s).

Definition set_operator (A : E B → E B → Qc) (s : PETScKrylovSolver)
    : PETScKrylovSolver :=
  mkPETScKrylovSolver (ks_method s) (ks_preconditioner s) (parameters s) (Some A).

(** [solver.solve(x.vector(), b)]: PETSc reads the global options, starts
    from and overwrites the vector of [x]. *)
Definition PETScKrylovSolver_solve (s : PETScKrylovSolver) (x : Function)
    (b : E B → Qc) : M unit :=
  match operator s with
  | None => raise RuntimeError
  | Some A =>
      σ ← get_store;
      opts ← get_petsc_options;
      let '(y, converged) :=
        petsc_krylov_solve B opts (ks_method s) (ks_preconditioner s)
          (parameters s) A (value σ x) b in
      log (EvKrylovSolve (ks_method s) (ks_preconditioner s) (parameters s)
             A x b converged);;
      write x y;;
      if converged || negb (error_on_nonconvergence (parameters s))
      then ret tt else raise RuntimeError
  end.

(** ** The module *)

(** [epsilon] and [sigma] are local to [_rhs_weak]; [sigma] closes over
    [mu]. *)
Definition epsilon (u : expr) : expr :=
  Scale (SNum (decimal 5 1)) (Add (Grad u) (Transp (Grad u))).

Definition sigma (mu : Constant) (u : Function) (p : expr) : expr :=
  let d := topological_dimension (mesh (function_space u)) in
  Sub (Scale (SMul (SNum (decimal 2 0)) (SConst mu)) (epsilon (Coef u)))
      (Mul p (Identity d)).

(** Right-hand side of the momentum equation in weak form. *)
Definition _rhs_weak (u : Function) (v : Argument) (f : expr)
    (rho mu : Constant) (p0 : Function) : form :=
  let normal := FacetNormal (mesh (arg_space v)) in
  FAdd
    (FSub
       (FSub
          (FSub
             (Dx (Inner f (Arg v)))
             (Dx (Scale (SMul (SConst rho) (SNum (decimal 5 1)))
                    (Sub (Inner (Mul (Grad (Coef u)) (Coef u)) (Arg v))
                         (Inner (Mul (Grad (Arg v)) (Coef u)) (Coef u))))))
          (Dx (Inner (sigma mu u (Coef p0)) (epsilon (Arg v)))))
       (Ds (Inner (Mul (Coef p0) normal) (Arg v))))
    (Ds (Scale (SConst mu)
           (Inner (Mul (Transp (Grad (Coef u))) normal) (Arg v)))).

(** The residual [F1] and the weight [alpha] of a time stepping method;
    [u0] is [u[0]], [ui] the unknown. *)
Definition tentative_velocity_residual (time_step_method : string)
    (u0 ui : Function) (p0 : Function) (f : gmap Z expr)
    (rho mu dt : Constant) (v : Argument) : result (Qc * form) :=
  if String.eqb time_step_method "forward euler" then
    f0 ← getitem f 0%Z;
    mret (1,
         FSub (Dx (Inner (Sub (Coef ui) (Coef u0)) (Arg v)))
              (FScale (SDiv (SConst dt) (SConst rho))
                 (_rhs_weak u0 v f0 rho mu p0)))
  else if String.eqb time_step_method "backward euler" then
    f1 ← getitem f 1%Z;
    mret (1,
         FSub (Dx (Inner (Sub (Coef ui) (Coef u0)) (Arg v)))
              (FScale (SDiv (SConst dt) (SConst rho))
                 (_rhs_weak ui v f1 rho mu p0)))
  else
    py_assert (String.eqb time_step_method "crank-nicolson");;
    f0 ← getitem f 0%Z;
    f1 ← getitem f 1%Z;
    mret (1,
         FSub (Dx (Inner (Sub (Coef ui) (Coef u0)) (Arg v)))
              (FScale (SMul (SDiv (SConst dt) (SConst rho))
                            (SNum (decimal 5 1)))
                 (FAdd (_rhs_weak u0 v f0 rho mu p0)
                       (_rhs_weak ui v f1 rho mu p0)))).

Definition tentative_velocity_parameters (tol : Qc)
    : nonlinear_solver_parameters :=
  mkNonlinearParameters "newton"
    (mkNewtonParameters 10 true tol 0 true).

Definition _compute_tentative_velocity (u : gmap Z Function) (p0 : Function)
    (f : gmap Z expr) (u_bcs : list DirichletBC) (time_step_method : string)
    (rho mu dt : Constant) (v : Argument) (tol : Qc) : M (Function * Qc) :=
  u0 ← lift (getitem u 0%Z);
  ui ← new_Function (function_space u0);
  '(alpha, F1) ←
    lift (tentative_velocity_residual time_step_method u0 ui p0 f rho mu dt v);
  let J := derivative F1 ui in
  assign ui u0;;
  solve_nonlinear F1 ui u_bcs J (tentative_velocity_parameters tol);;
  ret (ui, alpha).

(** The bilinear and the linear form of the pressure Poisson problem. *)
Definition pressure_a2 (P : FunctionSpace) : form :=
  Dx (Dot (Grad (Arg (TrialFunction P))) (Grad (Arg (TestFunction P)))).

Definition pressure_L2 (P : FunctionSpace) (p0 : Function) (alpha : Qc)
    (rho dt mu : Constant) (div_ui : expr) (rotational_form : bool) : form :=
  let q := TestFunction P in
  let L2 :=
    Dx (Mul (Scale (SDiv (SMul (SNum (- alpha)) (SConst rho)) (SConst dt))
               div_ui)
            (Arg q)) in
  let L2 := FAdd L2 (Dx (Dot (Grad (Coef p0)) (Grad (Arg q)))) in
  if rotational_form
  then FSub L2 (Dx (Scale (SConst mu) (Dot (Grad div_ui) (Grad (Arg q)))))
  else L2.

Definition pressure_dirichlet_parameters (tol : Qc) (verbose : bool)
    : linear_solver_parameters :=
  mkLinearParameters "iterative" true "hypre_amg"
    (mkKrylovParameters tol 0 100 verbose true).

Definition _compute_pressure (p0 : option Function) (alpha : Qc)
    (rho dt mu : Constant) (div_ui : expr)
    (p_bcs : option (list DirichletBC))
    (p_function_space : option FunctionSpace)
    (rotational_form : bool) (tol : Qc) (verbose : bool) : M Function :=
  let P :=
    match p0 with
    | Some p => Some (function_space p)
    | None => p_function_space
    end in
  P ← match P with Some P => ret P | None => raise TypeError end;
  p1 ← new_Function P;
  p0 ← match p0 with Some p => ret p | None => raise UFLException end;
  let a2 := pressure_a2 P in
  let L2 := pressure_L2 P p0 alpha rho dt mu div_ui rotational_form in
  if truthy p_bcs then
    solve_linear a2 L2 p1 (default [] p_bcs)
      (pressure_dirichlet_parameters tol verbose);;
    ret p1
  else
    σ ← get_store;
    let A := assemble_matrix σ a2 in
    let b := assemble_vector σ L2 in
    let prec := "hypre_amg" in
    PETScOptions_set "pc_hypre_boomeramg_relax_type_coarse" "jacobi";;
    let solver := new_PETScKrylovSolver "cg" prec in
    let solver := set_parameters (set_absolute_tolerance 0) solver in
    let solver := set_parameters (set_relative_tolerance tol) solver in
    let solver := set_parameters (set_maximum_iterations 1000) solver in
    let solver := set_parameters (set_monitor_convergence verbose) solver in
    let solver := set_parameters (set_error_on_nonconvergence true) solver in
    let solver := set_operator A solver in
    PETScKrylovSolver_solve solver p1 b;;
    ret p1.

Definition velocity_correction_phi (ui p1 p0 : Function) (mu : Constant)
    (rotational_form : bool) : expr :=
  let phi := Sub (Coef p1) (Coef p0) in
  if rotational_form then Add phi (Scale (SConst mu) (Div (Coef ui))) else phi.

Definition velocity_correction_parameters (tol : Qc) (verbose : bool)
    : linear_solver_parameters :=
  mkLinearParameters "iterative" true "hypre_amg"
    (mkKrylovParameters tol 0 100 verbose true).

Definition _compute_velocity_correction (ui : Function) (u : gmap Z Function)
    (u_bcs : list DirichletBC) (p1 p0 : Function) (v : Argument)
    (mu rho dt : Constant) (rotational_form : bool) (tol : Qc)
    (verbose : bool) : M Function :=
  u0 ← lift (getitem u 0%Z);
  let u2 := TrialFunction (function_space u0) in
  let a3 := Dx (Inner (Arg u2) (Arg v)) in
  let phi := velocity_correction_phi ui p1 p0 mu rotational_form in
  let L3 :=
    FSub (Dx (Inner (Coef ui) (Arg v)))
         (Dx (Scale (SDiv (SConst dt) (SConst rho))
                (Inner (Grad phi) (Arg v)))) in
  u1 ← new_Function (function_space u0);
  solve_linear a3 L3 u1 u_bcs (velocity_correction_parameters tol verbose);;
  ret u1.

(** Incremental pressure correction scheme: one time step. *)
Definition _step (dt : Constant) (u : gmap Z Function) (p0 : Function)
    (u_bcs : list DirichletBC) (p_bcs : option (list DirichletBC))
    (rho mu : Constant) (time_step_method : string) (f : gmap Z expr)
    (rotational_form verbose : bool) (tol : Qc) : M (Function * Function) :=
  lift (py_assert (bool_decide (0 < values0 dt)));;
  lift (py_assert (bool_decide (0 < values0 mu)));;
  u0 ← lift (getitem u 0%Z);
  let v := TestFunction (function_space u0) in
  '(ui, alpha) ←
    with_Message "Computing tentative velocity"
      (_compute_tentative_velocity u p0 f u_bcs time_step_method rho mu dt v
         (decimal 1 10));
  p1 ←
    with_Message "Computing pressure"
      (_compute_pressure (Some p0) alpha rho dt mu (Div (Coef ui)) p_bcs None
         rotational_form tol verbose);
  u1 ←
    with_Message "Computing velocity correction"
      (_compute_velocity_correction ui u u_bcs p1 p0 v mu rho dt
         rotational_form tol verbose);
  ret (u1, p1).

(** The three schemes.  [order] is a class attribute. *)
Record order := mkOrder { velocity : Qc; pressure : Qc }.

Record Chorin := mkChorin { }.
Definition Chorin_order : order := mkOrder 1 (decimal 5 1).

Definition Chorin_step (self : Chorin) (dt : Constant) (u : gmap Z Function)
    (p0 : Function) (u_bcs : list DirichletBC)
    (p_bcs : option (list DirichletBC)) (rho mu : Constant) (f : gmap Z expr)
    (verbose : bool) (tol : Qc) : M (Function * Function) :=
  p0' ← new_Function (function_space p0);
  _step dt u p0' u_bcs p_bcs rho mu "backward euler" f false verbose tol.

Record IPCS := mkIPCS { IPCS_time_step_method : string }.
Definition IPCS_order : order := mkOrder (decimal 2 0) 1.

Definition IPCS_step (self : IPCS) (dt : Constant) (u : gmap Z Function)
    (p0 : Function) (u_bcs : list DirichletBC)
    (p_bcs : option (list DirichletBC)) (rho mu : Constant) (f : gmap Z expr)
    (verbose : bool) (tol : Qc) : M (Function * Function) :=
  _step dt u p0 u_bcs p_bcs rho mu (IPCS_time_step_method self) f false
    verbose tol.

Record Rotational := mkRotational { Rotational_time_step_method : string }.
Definition Rotational_order : order := mkOrder (decimal 2 0) (decimal 15 1).

Definition Rotational_step (self : Rotational) (dt : Constant)
    (u : gmap Z Function) (p0 : Function) (u_bcs : list DirichletBC)
    (p_bcs : option (list DirichletBC)) (rho mu : Constant) (f : gmap Z expr)
    (verbose : bool) (tol : Qc) : M (Function * Function) :=
  _step dt u p0 u_bcs p_bcs rho mu (Rotational_time_step_method self) f true
    verbose tol.

(** ** Observing a run *)

(** The entries a computation appends to the log, and its outcome. *)
Definition calls {A} (m : M A) (w : world) : list event :=
  drop (length (trace w)) (trace (m w).2).
Definition outcome {A} (m : M A) (w : world) : result A := (m w).1.

Definition set_store (σ : gmap nat (E B)) (w : world) : world :=
  mkWorld σ (petsc_options w) (trace w).
Definition add_trace (evs : list event) (w : world) : world :=
  mkWorld (store w) (petsc_options w) (trace w ++ evs).

(** The linear system a logged call solved, the [Function] it solved for
    and what the solver reported. *)
Definition system_of (ev : event) : option ((E B → E B → Qc) * (E B → Qc)) :=
  match ev with
  | EvLinearSolve A b _ _ _ _ => Some (A, b)
  | EvKrylovSolve _ _ _ A _ b _ => Some (A, b)
  | _ => None
  end.

Definition unknown_of (ev : event) : option Function :=
  match ev with
  | EvMessage _ _ => None
  | EvNewtonSolve _ u _ _ _ _ _ => Some u
  | EvLinearSolve _ _ u _ _ _ => Some u
  | EvKrylovSolve _ _ _ _ x _ _ => Some x
  end.

Definition converged_of (ev : event) : option bool :=
  match ev with
  | EvMessage _ _ => None
  | EvNewtonSolve _ _ _ _ _ _ c => Some c
  | EvLinearSolve _ _ _ _ _ c => Some c
  | EvKrylovSolve _ _ _ _ _ _ c => Some c
  end.

(** The Krylov parameters of a logged linear solve. *)
Definition krylov_of (ev : event) : option krylov_solver_parameters :=
  match ev with
  | EvLinearSolve _ _ _ _ p _ => Some (krylov_solver p)
  | EvKrylovSolve _ _ p _ _ _ _ => Some p
  | _ => None
  end.

(** The Newton parameters of a logged nonlinear solve. *)
Definition newton_of (ev : event) : option newton_solver_parameters :=
  match ev with
  | EvNewtonSolve _ _ _ _ p _ _ => Some (newton_solver p)
  | _ => None
  end.

(** The parameters of the conjugate-gradient solver once the five
    assignments to [solver.parameters] are done. *)
Definition pressure_neumann_parameters (tol : Qc) (verbose : bool)
    : krylov_solver_parameters :=
  mkKrylovParameters tol 0 1000 verbose true.

(** ** The specification's formulas, on the values of the fields *)

Inductive time_method := ForwardEuler | BackwardEuler | CrankNicolson.

Definition method_name (m : time_method) : string :=
  match m with
  | ForwardEuler => "forward euler"
  | BackwardEuler => "backward euler"
  | CrankNicolson => "crank-nicolson"
  end.

(** Where the weak right-hand side is evaluated: [old] at the old state with
    the old force, [new] at the unknown with the new force. *)
Definition spec_rhs (m : time_method) (old new : Qc) : Qc :=
  match m with
  | ForwardEuler => old
  | BackwardEuler => new
  | CrankNicolson => (old + new) / decimal 2 0
  end.

(** [F1 = (u_i - u_old).v - (dt/rho) rhs]. *)
Definition spec_residual (dt rho : Qc) (ui u_old v : E B) (rhs : Qc) : Qc :=
  intdx B (innerE B (subE B ui u_old) v) - dt / rho * rhs.

(** Bilinear form [∫∇p·∇q]. *)
Definition spec_pressure_bilinear (p q : E B) : Qc :=
  intdx B (dotE B (gradE B p) (gradE B q)).

(** [−α ρ/dt ∫div(u_star) q], minus [mu ∫∇(div u_star)·∇q] in rotational
    form. *)
Definition spec_pressure_source (alpha rho dt mu : Qc) (div_u q : E B)
    (rotational_form : bool) : Qc :=
  - (alpha * (rho / dt)) * intdx B (mulE B div_u q)
  - (if rotational_form
     then mu * intdx B (dotE B (gradE B div_u) (gradE B q)) else 0).

(** Linear form: the source plus the carried-forward [∫∇p0·∇q]. *)
Definition spec_pressure_linear (alpha rho dt mu : Qc) (div_u p0 q : E B)
    (rotational_form : bool) : Qc :=
  - (alpha * (rho / dt)) * intdx B (mulE B div_u q)
  + intdx B (dotE B (gradE B p0) (gradE B q))
  - (if rotational_form
     then mu * intdx B (dotE B (gradE B div_u) (gradE B q)) else 0).

(** [φ = p_new − p_old], plus [mu div(u_star)] in rotational form. *)
Definition spec_phi (mu : Qc) (p_new p_old div_u : E B)
    (rotational_form : bool) : E B :=
  if rotational_form
  then addE B (subE B p_new p_old) (scaleE B mu div_u)
  else subE B p_new p_old.

(** Mass matrix [∫u·v] and right-hand side [∫u_star·v − (dt/rho)∫∇φ·v]. *)
Definition spec_correction_bilinear (u v : E B) : Qc :=
  intdx B (innerE B u v).
Definition spec_correction_linear (dt rho : Qc) (u_star phi v : E B) : Qc :=
  intdx B (innerE B u_star v) - dt / rho * intdx B (innerE B (gradE B phi) v).

End Model.

(** ** Laws of a backend *)

(** What the proofs use of a backend: the integral over the domain, the
    gradient and the products are linear where the forms of the module need
    it, and a linear solver depends on the assembled system only through its
    entries. *)
Record BackendLaws (B : Backend) : Prop := mkBackendLaws {
  intdx_scale : ∀ c a, intdx B (scaleE B c a) = c * intdx B a;
  intdx_sub : ∀ a b, intdx B (subE B a b) = intdx B a - intdx B b;
  mul_scale_l : ∀ c a b, mulE B (scaleE B c a) b = scaleE B c (mulE B a b);
  grad_sub : ∀ a b, gradE B (subE B a b) = subE B (gradE B a) (gradE B b);
  dot_sub_l : ∀ a b c,
    dotE B (subE B a b) c = subE B (dotE B a c) (dotE B b c);
  linear_variational_solve_ext : ∀ a a' L L' bcs p,
    (∀ x y, a x y = a' x y) → (∀ y, L y = L' y) →
    linear_variational_solve B a L bcs p =
    linear_variational_solve B a' L' bcs p;
  petsc_krylov_solve_ext : ∀ opts method prec p A A' x b b',
    (∀ x y, A x y = A' x y) → (∀ y, b y = b' y) →
    petsc_krylov_solve B opts method prec p A x b =
    petsc_krylov_solve B opts method prec p A' x b' }.

(** ** A concrete backend: quadratic polynomials on the unit interval *)

(** Fields are polynomials [c0 + c1 x + c2 x^2] on [[0,1]]; products are
    truncated after [x^2].  In one space dimension gradient and divergence
    are the derivative, transposition is the identity, and the outward normal
    is [-1] at [0] and [1] at [1], the boundary values of [2 x - 1]. *)
Module Poly.

Record poly := mkPoly { c0 : Qc; c1 : Qc; c2 : Qc }.

Definition zero : poly := mkPoly 0 0 0.
Definition one : poly := mkPoly 1 0 0.
Definition X : poly := mkPoly 0 1 0.
Definition X2 : poly := mkPoly 0 0 1.
Definition add (a b : poly) : poly :=
  mkPoly (c0 a + c0 b) (c1 a + c1 b) (c2 a + c2 b).
Definition sub (a b : poly) : poly :=
  mkPoly (c0 a - c0 b) (c1 a - c1 b) (c2 a - c2 b).
Definition scale (c : Qc) (a : poly) : poly :=
  mkPoly (c * c0 a) (c * c1 a) (c * c2 a).
Definition mul (a b : poly) : poly :=
  mkPoly (c0 a * c0 b)
         (c0 a * c1 b + c1 a * c0 b)
         (c0 a * c2 b + c1 a * c1 b + c2 a * c0 b).
Definition deriv (a : poly) : poly :=
  mkPoly (c1 a) (decimal 2 0 * c2 a) 0.
Definition normal (_ : Mesh) : poly := mkPoly (-(1)) (decimal 2 0) 0.
(** Integral over [[0,1]]. *)
Definition integral (a : poly) : Qc :=
  c0 a + c1 a / decimal 2 0 + c2 a / decimal 3 0.
(** Sum of the values at the two end points. *)
Definition boundary (a : poly) : Qc := c0 a + (c0 a + c1 a + c2 a).

(** The load vector on the monomial basis, read as a field: one Richardson
    sweep from the zero vector. *)
Definition load (L : poly → Qc) : poly := mkPoly (L one) (L X) (L X2).

(** The solvers of the backend: Newton accepts its initial guess, the linear
    solvers return the load vector; each reports convergence as it is told
    to. *)
Definition backend (newton_ok linear_ok krylov_ok : bool) : Backend :=
  {| E := poly;
     zeroE := zero; addE := add; subE := sub; scaleE := scale; mulE := mul;
     gradE := deriv; divE := deriv; transpE := λ a, a;
     innerE := mul; dotE := mul;
     normalE := normal; identityE := λ _, one;
     intdx := integral; intds := boundary;
     krylov_default_parameters :=
       mkKrylovParameters (decimal 1 6) (decimal 1 15) 10000 false true;
     newton := λ σ F u bcs J p, (default zero (σ !! fn_loc u), newton_ok);
     linear_variational_solve := λ a L bcs p, (load L, linear_ok);
     petsc_krylov_solve := λ opts method prec p A x b, (load b, krylov_ok) |}.

End Poly.

(** ** A concrete time step on the polynomial backend *)

Module Example.

(** The unit interval, a velocity and a pressure space on it. *)
Definition interval : Mesh := mkMesh 0 1.
Definition W : FunctionSpace := mkFunctionSpace 0 interval.
Definition Q : FunctionSpace := mkFunctionSpace 1 interval.

(** Previous velocity [u(x) = x], with divergence [1]; previous pressure
    [p(x) = 1 + x]; force [f(x) = 1]. *)
Definition u_prev : Function := mkFunction 0 W.
Definition p_prev : Function := mkFunction 1 Q.
Definition force : Function := mkFunction 2 W.

Definition store0 : gmap nat Poly.poly :=
  <[0%nat := Poly.X]>
    (<[1%nat := Poly.add Poly.one Poly.X]> (<[2%nat := Poly.one]> ∅)).

Definition u_hist : gmap Z Function :=
  <[0%Z := u_prev]> (<[(-1)%Z := u_prev]> ∅).
Definition f_hist : gmap Z expr :=
  <[0%Z := Coef force]> (<[1%Z := Coef force]> ∅).

Definition one_c : Constant := mkConstant 1.
Definition zero_c : Constant := mkConstant 0.
Definition minus_one_c : Constant := mkConstant (- (1)).
Definition tenth_c : Constant := mkConstant (decimal 1 1).

Definition bc0 : DirichletBC := mkDirichletBC 0.

(** All solvers converge. *)
Definition B : Backend := Poly.backend true true true.
(** Newton does not converge. *)
Definition B_newton_fails : Backend := Poly.backend false true true.
(** The linear solvers do not converge. *)
Definition B_linear_fails : Backend := Poly.backend true false false.

Definition w0 (B : Backend) (σ : gmap nat (E B)) : world B := mkWorld B σ ∅ [].

(** The tentative velocity, the new pressure and the new velocity of a step
    from [store0] are the objects at the next three free locations; [F1] is
    the backward Euler residual. *)
Definition v : Argument := TestFunction W.
Definition ui : Function := mkFunction 3 W.
Definition p_new : Function := mkFunction 4 Q.
Definition u_new : Function := mkFunction 5 W.
Definition F1 (rho mu dt : Constant) (p0 : Function) : form :=
  FSub (Dx (Inner (Sub (Coef ui) (Coef u_prev)) (Arg v)))
       (FScale (SDiv (SConst dt) (SConst rho))
          (_rhs_weak ui v (Coef force) rho mu p0)).

End Example.

(** ** Further laws and predicates *)

(** Further laws of a backend: sums, multiples and the zero field pass
    through the gradient, the first argument of [dot] and the integral. *)
Record FieldLaws (B : Backend) : Prop := mkFieldLaws {
  intdx_add : ∀ a b, intdx B (addE B a b) = intdx B a + intdx B b;
  intdx_zero : intdx B (zeroE B) = 0;
  grad_add : ∀ a b, gradE B (addE B a b) = addE B (gradE B a) (gradE B b);
  grad_scale : ∀ c a, gradE B (scaleE B c a) = scaleE B c (gradE B a);
  grad_zero : gradE B (zeroE B) = zeroE B;
  dot_add_l : ∀ a b c,
    dotE B (addE B a b) c = addE B (dotE B a c) (dotE B b c);
  dot_scale_l : ∀ c a b, dotE B (scaleE B c a) b = scaleE B c (dotE B a b);
  dot_zero_l : ∀ a, dotE B (zeroE B) a = zeroE B }.

(** The force a method reads is not there. *)
Definition force_missing (m : time_method) (f : gmap Z expr) : Prop :=
  match m with
  | ForwardEuler => f !! 0%Z = None
  | BackwardEuler => f !! 1%Z = None
  | CrankNicolson => f !! 0%Z = None ∨ f !! 1%Z = None
  end.

(** ** The Stokes solver of [flow/stokes.py] *)

(** [solve] assembles the Stokes system and a preconditioner on a mixed
    velocity--pressure space and hands both to a preconditioned Krylov
    solver.  The fields of a mixed space are pairs of a velocity and a
    pressure; the operators the solver receives are functions of two such
    pairs, together with the boundary conditions [assemble_system] built
    into them. *)

Module Stokes.

#[local] Instance Mesh_eq_dec : EqDecision Mesh.
Proof. solve_decision. Defined.
#[local] Instance FunctionSpace_eq_dec : EqDecision FunctionSpace.
Proof. solve_decision. Defined.

(** A mixed space [WP]: [sub0 WP] is [WP.sub(0)], the velocity space, and
    [sub1 WP] is [WP.sub(1)], the pressure space. *)
Record MixedFunctionSpace := mkMixedFunctionSpace {
  sub0 : FunctionSpace;
  sub1 : FunctionSpace }.

(** [TrialFunctions(WP)] and [TestFunctions(WP)]: the components of the trial
    and of the test function, each named by the sub-space it lives in. *)
Definition TrialFunctions (WP : MixedFunctionSpace) : Argument * Argument :=
  (TrialFunction (sub0 WP), TrialFunction (sub1 WP)).
Definition TestFunctions (WP : MixedFunctionSpace) : Argument * Argument :=
  (TestFunction (sub0 WP), TestFunction (sub1 WP)).

(** [Function(WP)]: the velocity and the pressure block of its vector each
    have a location in the store; [split] returns the two sub-functions,
    which are views of these blocks. *)
Record MixedFunction := mkMixedFunction {
  block0 : nat;
  block1 : nat;
  mixed_space : MixedFunctionSpace }.

Definition split (up : MixedFunction) : Function * Function :=
  (mkFunction (block0 up) (sub0 (mixed_space up)),
   mkFunction (block1 up) (sub1 (mixed_space up))).

(** What [assemble_system] returns: the entries of the form, and the boundary
    conditions built into the matrix and the vector. *)
Record Matrix (B : Backend) := mkMatrix {
  entries : E B * E B → E B * E B → Qc;
  matrix_bcs : list DirichletBC }.
Record Vector (B : Backend) := mkVector {
  vector_entries : E B * E B → Qc;
  vector_bcs : list DirichletBC }.
Arguments mkMatrix {B} _ _.
Arguments entries {B} _ _ _.
Arguments matrix_bcs {B} _.
Arguments mkVector {B} _ _.
Arguments vector_entries {B} _ _.
Arguments vector_bcs {B} _.

(** dolfin's generic [KrylovSolver] on a backend: the default of
    [parameters['report']], and the solver itself, which is given the
    method, the preconditioner, the parameters, the operator, the
    preconditioner matrix, the initial guess and the right-hand side. *)
Record Solver (B : Backend) := mkSolver {
  krylov_default_report : bool;
  krylov_solve :
    string → string → krylov_solver_parameters → bool →
    Matrix B → Matrix B → E B * E B → Vector B → (E B * E B) * bool }.

Section StokesModel.

Variable B : Backend.
Variable K : Solver B.

(** Values of the coefficients, of the trial and of the test function. *)
Record mixed_env := mkMixedEnv {
  m_store : gmap nat (E B);
  m_trial : E B * E B;
  m_test : E B * E B }.

(** The component of a mixed field that lives in the space [V]. *)
Definition component (WP : MixedFunctionSpace) (V : FunctionSpace)
    (x : E B * E B) : E B :=
  if decide (V = sub0 WP) then x.1 else x.2.

Fixpoint mixed_eden (WP : MixedFunctionSpace) (ρ : mixed_env) (e : expr)
    : E B :=
  match e with
  | Coef u => value B (m_store ρ) u
  | Arg a =>
      component WP (arg_space a)
        (match arg_number a with O => m_test ρ | S _ => m_trial ρ end)
  | FacetNormal m => normalE B m
  | Identity d => identityE B d
  | Scale s a => scaleE B (sden s) (mixed_eden WP ρ a)
  | Mul a b => mulE B (mixed_eden WP ρ a) (mixed_eden WP ρ b)
  | Add a b => addE B (mixed_eden WP ρ a) (mixed_eden WP ρ b)
  | Sub a b => subE B (mixed_eden WP ρ a) (mixed_eden WP ρ b)
  | Grad a => gradE B (mixed_eden WP ρ a)
  | Div a => divE B (mixed_eden WP ρ a)
  | Transp a => transpE B (mixed_eden WP ρ a)
  | Inner a b => innerE B (mixed_eden WP ρ a) (mixed_eden WP ρ b)
  | Dot a b => dotE B (mixed_eden WP ρ a) (mixed_eden WP ρ b)
  end.

Fixpoint mixed_fden (WP : MixedFunctionSpace) (ρ : mixed_env) (F : form)
    : Qc :=
  match F with
  | Dx e => intdx B (mixed_eden WP ρ e)
  | Ds e => intds B (mixed_eden WP ρ e)
  | FAdd a b => mixed_fden WP ρ a + mixed_fden WP ρ b
  | FSub a b => mixed_fden WP ρ a - mixed_fden WP ρ b
  | FScale s a => sden s * mixed_fden WP ρ a
  end.

(** [assemble_system(a, L, bcs)] on the mixed space [WP]. *)
Definition assemble_system (WP : MixedFunctionSpace) (σ : gmap nat (E B))
    (a L : form) (bcs : list DirichletBC) : Matrix B * Vector B :=
  (mkMatrix (λ x y, mixed_fden WP (mkMixedEnv σ x y) a) bcs,
   mkVector (λ y, mixed_fden WP (mkMixedEnv σ (zeroE B, zeroE B) y) L) bcs).

(** A call of the Krylov solver, with what it was given and what it
    reported. *)
Record call := mkCall {
  c_method : string;
  c_preconditioner : string;
  c_parameters : krylov_solver_parameters;
  c_report : bool;
  c_A : Matrix B;
  c_P : Matrix B;
  c_guess : E B * E B;
  c_b : Vector B;
  c_converged : bool }.

Record state := mkState {
  s_store : gmap nat (E B);
  s_calls : list call }.

Definition SM (A : Type) : Type := state → result A * state.

#[local] Instance SM_ret : MRet SM := λ A a w, (Ok a, w).
#[local] Instance SM_bind : MBind SM :=
  λ A C k m w, match m w with
               | (Ok a, w') => k a w'
               | (Raise e, w') => (Raise e, w')
               end.

Definition raise {A} (e : exn) : SM A := λ w, (Raise e, w).
Definition lift {A} (r : result A) : SM A := λ w, (r, w).
Definition get_store : SM (gmap nat (E B)) := λ w, (Ok (s_store w), w).
Definition log (c : call) : SM unit :=
  λ w, (Ok tt, mkState (s_store w) (s_calls w ++ [c])).

(** [Function(WP)]: a new object with zero coefficients. *)
Definition new_MixedFunction (WP : MixedFunctionSpace) : SM MixedFunction :=
  λ w, let l0 := fresh (dom (s_store w)) in
       let σ := <[l0 := zeroE B]> (s_store w) in
       let l1 := fresh (dom σ) in
       (Ok (mkMixedFunction l0 l1 WP),
        mkState (<[l1 := zeroE B]> σ) (s_calls w)).

(** The vector of a mixed function, and its assignment. *)
Definition vector (σ : gmap nat (E B)) (up : MixedFunction) : E B * E B :=
  (default (zeroE B) (σ !! block0 up), default (zeroE B) (σ !! block1 up)).
Definition write_vector (up : MixedFunction) (x : E B * E B) : SM unit :=
  λ w, (Ok tt,
        mkState (<[block1 up := x.2]> (<[block0 up := x.1]> (s_store w)))
          (s_calls w)).

(** A [KrylovSolver] object; [k_report] is [parameters['report']]. *)
Record KrylovSolver := mkKrylovSolver {
  k_method : string;
  k_preconditioner : string;
  k_parameters : krylov_solver_parameters;
  k_report : bool;
  k_operators : option (Matrix B * Matrix B) }.

Definition new_KrylovSolver (method prec : string) : KrylovSolver :=
  mkKrylovSolver method prec (krylov_default_parameters B)
    (krylov_default_report B K) None.

Definition set_operators (A P : Matrix B) (s : KrylovSolver) : KrylovSolver :=
  mkKrylovSolver (k_method s) (k_preconditioner s) (k_parameters s)
    (k_report s) (Some (A, P)).

Definition set_parameters
    (f : krylov_solver_parameters → krylov_solver_parameters)
    (s : KrylovSolver) : KrylovSolver :=
  mkKrylovSolver (k_method s) (k_preconditioner s) (f (k_parameters s))
    (k_report s) (k_operators s).

Definition set_report (b : bool) (s : KrylovSolver) : KrylovSolver :=
  mkKrylovSolver (k_method s) (k_preconditioner s) (k_parameters s) b
    (k_operators s).

(** [solver.solve(x.vector(), b)]: the solver starts from and overwrites the
    vector of [x]; whether a failure to converge is an error is up to the
    parameters. *)
Definition KrylovSolver_solve (s : KrylovSolver) (x : MixedFunction)
    (b : Vector B) : SM unit :=
  match k_operators s with
  | None => raise RuntimeError
  | Some (A, P) =>
      σ ← get_store;
      let '(y, converged) :=
        krylov_solve B K (k_method s) (k_preconditioner s) (k_parameters s)
          (k_report s) A P (vector σ x) b in
      log (mkCall (k_method s) (k_preconditioner s) (k_parameters s)
             (k_report s) A P (vector σ x) b converged);;
      write_vector x y;;
      if converged || negb (error_on_nonconvergence (k_parameters s))
      then mret tt else raise RuntimeError
  end.

(** [solve(WP, bcs, mu, f, verbose, tol)].  [mu] is a Python float.  The
    branch under [if False and has_petsc()] is never taken, and [has_petsc]
    is not even called: what runs is the [else] branch. *)
Definition solve (WP : MixedFunctionSpace) (bcs : list DirichletBC) (mu : Qc)
    (f : expr) (verbose : bool) (tol : Qc) : SM (Function * Function) :=
  lift (py_assert (bool_decide (0 < mu)));;
  let '(u, p) := TrialFunctions WP in
  let '(v, q) := TestFunctions WP in
  let a :=
    FSub (FSub (Dx (Scale (SNum mu) (Inner (Grad (Arg u)) (Grad (Arg v)))))
               (Dx (Mul (Arg p) (Div (Arg v)))))
         (Dx (Mul (Arg q) (Div (Arg u)))) in
  let L := Dx (Dot f (Arg v)) in
  σ ← get_store;
  let '(A, b) := assemble_system WP σ a L bcs in
  let prec :=
    FSub (Dx (Scale (SNum mu) (Inner (Grad (Arg u)) (Grad (Arg v)))))
         (Dx (Mul (Arg p) (Arg q))) in
  let '(M, _) := assemble_system WP σ prec L bcs in
  let solver := new_KrylovSolver "gmres" "amg" in
  let solver := set_operators A M solver in
  let solver := set_parameters (set_monitor_convergence verbose) solver in
  let solver := set_report verbose solver in
  let solver := set_parameters (set_absolute_tolerance 0) solver in
  let solver := set_parameters (set_relative_tolerance tol) solver in
  let solver := set_parameters (set_maximum_iterations 500) solver in
  up ← new_MixedFunction WP;
  KrylovSolver_solve solver up b;;
  mret (split up).

(** The calls a run adds to the log. *)
Definition calls {A} (m : SM A) (w : state) : list call :=
  drop (length (s_calls w)) (s_calls (m w).2).

(** A bilinear form is symmetric. *)
Definition symmetric_matrix (A : Matrix B) : Prop :=
  ∀ x y, entries A x y = entries A y x.

End StokesModel.

(** What the proofs use of the fields: under the integral, [inner] and the
    product are symmetric; the differential operators and the products send
    zero to zero. *)
Record Laws (B : Backend) : Prop := mkLaws {
  intdx_inner_comm : ∀ a b, intdx B (innerE B a b) = intdx B (innerE B b a);
  intdx_mul_comm : ∀ a b, intdx B (mulE B a b) = intdx B (mulE B b a);
  div_zero : divE B (zeroE B) = zeroE B;
  inner_zero_l : ∀ a, innerE B (zeroE B) a = zeroE B;
  mul_zero_l : ∀ a, mulE B (zeroE B) a = zeroE B;
  mul_zero_r : ∀ a, mulE B a (zeroE B) = zeroE B }.

(** The polynomial backend, with a Krylov solver that returns the load vector
    on the basis [1, x] of the velocities and [1] of the pressures. *)
Definition poly_solver (krylov_ok : bool)
    : Solver (Poly.backend true true krylov_ok) :=
  mkSolver (Poly.backend true true krylov_ok) true
    (λ method prec p report A P x b,
       ((Poly.mkPoly (vector_entries b (Poly.one, Poly.zero))
                     (vector_entries b (Poly.X, Poly.zero)) 0,
         Poly.mkPoly (vector_entries b (Poly.zero, Poly.one)) 0 0),
        krylov_ok)).

(** The mixed space of the example, and the state that holds the force. *)
Definition WP : MixedFunctionSpace := mkMixedFunctionSpace Example.W Example.Q.
Definition s0 (B : Backend) (σ : gmap nat (E B)) : state B :=
  mkState B σ [].

End Stokes.

(** ** A polynomial backend with exact solvers *)

(** The fields and their operations are those of [Poly.backend].  The
    solvers do what a converged solver does.  Newton's method stops at its
    initial guess and reports convergence exactly when the residual vanishes
    there against the three basis functions.  The linear solvers solve the
    Galerkin system by Cramer's rule, and report failure when the matrix is
    singular: the generic solver on the whole space, the conjugate-gradient
    solver on the pressures [c1 x + c2 x^2], a pressure with Neumann
    conditions being fixed up to a constant only. *)
Module Exact.

Definition base : Backend := Poly.backend true true true.

Definition residual_vanishes (σ : gmap nat Poly.poly) (F : form) : bool :=
  forallb (λ q, Qc_eq_bool (fden base (mkEnv base σ Poly.zero q) F) 0)
    [Poly.one; Poly.X; Poly.X2].

Definition det3 (a11 a12 a13 a21 a22 a23 a31 a32 a33 : Qc) : Qc :=
  a11 * (a22 * a33 - a23 * a32)
  - a12 * (a21 * a33 - a23 * a31)
  + a13 * (a21 * a32 - a22 * a31).

(** Row [i] is the equation tested with the [i]-th basis function, column
    [j] belongs to the coefficient of the [j]-th. *)
Definition solve3 (A : Poly.poly → Poly.poly → Qc) (b : Poly.poly → Qc)
    : Poly.poly * bool :=
  let e1 := Poly.one in
  let e2 := Poly.X in
  let e3 := Poly.X2 in
  let d := det3 (A e1 e1) (A e2 e1) (A e3 e1)
                (A e1 e2) (A e2 e2) (A e3 e2)
                (A e1 e3) (A e2 e3) (A e3 e3) in
  (Poly.mkPoly
     (det3 (b e1) (A e2 e1) (A e3 e1)
           (b e2) (A e2 e2) (A e3 e2)
           (b e3) (A e2 e3) (A e3 e3) / d)
     (det3 (A e1 e1) (b e1) (A e3 e1)
           (A e1 e2) (b e2) (A e3 e2)
           (A e1 e3) (b e3) (A e3 e3) / d)
     (det3 (A e1 e1) (A e2 e1) (b e1)
           (A e1 e2) (A e2 e2) (b e2)
           (A e1 e3) (A e2 e3) (b e3) / d),
   negb (Qc_eq_bool d 0)).

Definition solve2 (A : Poly.poly → Poly.poly → Qc) (b : Poly.poly → Qc)
    : Poly.poly * bool :=
  let e2 := Poly.X in
  let e3 := Poly.X2 in
  let d := A e2 e2 * A e3 e3 - A e3 e2 * A e2 e3 in
  (Poly.mkPoly 0
     ((b e2 * A e3 e3 - A e3 e2 * b e3) / d)
     ((A e2 e2 * b e3 - A e2 e3 * b e2) / d),
   negb (Qc_eq_bool d 0)).

Definition backend : Backend :=
  {| E := Poly.poly;
     zeroE := Poly.zero; addE := Poly.add; subE := Poly.sub;
     scaleE := Poly.scale; mulE := Poly.mul;
     gradE := Poly.deriv; divE := Poly.deriv; transpE := λ a, a;
     innerE := Poly.mul; dotE := Poly.mul;
     normalE := Poly.normal; identityE := λ _, Poly.one;
     intdx := Poly.integral; intds := Poly.boundary;
     krylov_default_parameters :=
       mkKrylovParameters (decimal 1 6) (decimal 1 15) 10000 false true;
     newton := λ σ F u bcs J p,
       (default Poly.zero (σ !! fn_loc u), residual_vanishes σ F);
     linear_variational_solve := λ a L bcs p, solve3 a L;
     petsc_krylov_solve := λ opts method prec p A x b, solve2 A b |}.


(** A state that is not steady: a tentative velocity [x^2], whose divergence
    [2 x] has a gradient, and a new pressure [x^2]. *)
Definition u_star : Function := mkFunction 3 Example.W.
Definition p_next : Function := mkFunction 4 Example.Q.
Definition store1 : gmap nat Poly.poly :=
  <[3%nat := Poly.X2]> (<[4%nat := Poly.X2]> Example.store0).

End Exact.

(** * What a run of each function does *)

Ltac unfold_M :=
  unfold mbind, mret, M_bind, M_ret, bind, ret, raise, lift, log, write,
    new_Function, assign, get_store, get_petsc_options, PETScOptions_set.

Ltac run := repeat (progress (unfold_M; cbn)).

Section Runs.

Variable B : Backend.

Lemma with_Message_run {A} text (body : M B A) (w : world B) :
  with_Message B text body w =
  ((body (add_trace B [EvMessage B true text] w)).1,
   add_trace B [EvMessage B false text]
     (body (add_trace B [EvMessage B true text] w)).2).
Proof.
  unfold with_Message, add_trace.
  destruct (body _) as [r w']. reflexivity.
Qed.

(** Allocation does not change the value of any [Function]: a new object
    holds the zero vector, which is also what an unwritten one denotes. *)
Lemma value_alloc (σ : gmap nat (E B)) l g :
  σ !! l = None → value B (<[l := zeroE B]> σ) g = value B σ g.
Proof.
  intros Hl. unfold value.
  destruct (decide (l = fn_loc g)) as [<-|Hne].
  - rewrite lookup_insert_eq, Hl. reflexivity.
  - rewrite lookup_insert_ne by exact Hne. reflexivity.
Qed.

Lemma fresh_None (σ : gmap nat (E B)) : σ !! fresh (dom σ) = None.
Proof. apply not_elem_of_dom, is_fresh. Qed.

Lemma tentative_velocity_run (u : gmap Z Function) p0 f u_bcs
    time_step_method rho mu dt v tol (w : world B) u0 alpha F1 :
  u !! 0%Z = Some u0 →
  let l := fresh (dom (store B w)) in
  let ui := mkFunction l (function_space u0) in
  tentative_velocity_residual time_step_method u0 ui p0 f rho mu dt v
    = Ok (alpha, F1) →
  let σ1 := <[l := value B (<[l := zeroE B]> (store B w)) u0]>
              (<[l := zeroE B]> (store B w)) in
  let p := tentative_velocity_parameters tol in
  let out := newton B σ1 F1 ui u_bcs (derivative F1 ui) p in
  _compute_tentative_velocity B u p0 f u_bcs time_step_method rho mu dt v tol w
  = (if out.2 then Ok (ui, alpha) else Raise RuntimeError,
     add_trace B [EvNewtonSolve B F1 ui u_bcs (derivative F1 ui) p
                    (value B σ1 ui) out.2]
       (set_store B (<[l := out.1]> σ1) w)).
Proof.
  intros Hu l ui HF σ1 p out.
  unfold _compute_tentative_velocity, solve_nonlinear, getitem.
  rewrite Hu. run. fold l ui. rewrite HF. cbn. fold σ1 p out.
  destruct out as [x c]. cbn. rewrite orb_false_r. destruct c; reflexivity.
Qed.

Lemma pressure_dirichlet_run p0 alpha rho dt mu div_ui p_bcs pfs
    rotational_form tol verbose (w : world B) :
  truthy p_bcs = true →
  let P := function_space p0 in
  let l := fresh (dom (store B w)) in
  let p1 := mkFunction l P in
  let σ := <[l := zeroE B]> (store B w) in
  let A := assemble_matrix B σ (pressure_a2 P) in
  let b := assemble_vector B σ
             (pressure_L2 P p0 alpha rho dt mu div_ui rotational_form) in
  let p := pressure_dirichlet_parameters tol verbose in
  let out := linear_variational_solve B A b (default [] p_bcs) p in
  _compute_pressure B (Some p0) alpha rho dt mu div_ui p_bcs pfs
    rotational_form tol verbose w
  = (if out.2 then Ok p1 else Raise RuntimeError,
     add_trace B [EvLinearSolve B A b p1 (default [] p_bcs) p out.2]
       (set_store B (<[l := out.1]> σ) w)).
Proof.
  intros Hb P l p1 σ A b p out.
  unfold _compute_pressure, solve_linear. rewrite Hb. run.
  fold P l p1 σ A b p out.
  destruct out as [x c]. cbn. rewrite orb_false_r. destruct c; reflexivity.
Qed.

Lemma pressure_neumann_run p0 alpha rho dt mu div_ui p_bcs pfs
    rotational_form tol verbose (w : world B) :
  truthy p_bcs = false →
  let P := function_space p0 in
  let l := fresh (dom (store B w)) in
  let p1 := mkFunction l P in
  let σ := <[l := zeroE B]> (store B w) in
  let A := assemble_matrix B σ (pressure_a2 P) in
  let b := assemble_vector B σ
             (pressure_L2 P p0 alpha rho dt mu div_ui rotational_form) in
  let opts := <["pc_hypre_boomeramg_relax_type_coarse" := "jacobi"]>
                (petsc_options B w) in
  let p := pressure_neumann_parameters tol verbose in
  let out := petsc_krylov_solve B opts "cg" "hypre_amg" p A (value B σ p1) b in
  _compute_pressure B (Some p0) alpha rho dt mu div_ui p_bcs pfs
    rotational_form tol verbose w
  = (if out.2 then Ok p1 else Raise RuntimeError,
     mkWorld B (<[l := out.1]> σ) opts
       (trace B w ++ [EvKrylovSolve B "cg" "hypre_amg" p A p1 b out.2])).
Proof.
  intros Hb P l p1 σ A b opts p out.
  unfold _compute_pressure, PETScKrylovSolver_solve. rewrite Hb. run.
  unfold set_error_on_nonconvergence, set_monitor_convergence,
    set_maximum_iterations, set_relative_tolerance, set_absolute_tolerance.
  cbn. fold P l p1 σ A b opts. unfold pressure_neumann_parameters in p.
  fold p out.
  destruct out as [x c]. cbn. rewrite orb_false_r. destruct c; reflexivity.
Qed.

Lemma velocity_correction_run ui (u : gmap Z Function) u_bcs p1 p0 v mu rho dt
    rotational_form tol verbose (w : world B) u0 :
  u !! 0%Z = Some u0 →
  let l := fresh (dom (store B w)) in
  let u1 := mkFunction l (function_space u0) in
  let σ := <[l := zeroE B]> (store B w) in
  let a3 := Dx (Inner (Arg (TrialFunction (function_space u0))) (Arg v)) in
  let phi := velocity_correction_phi ui p1 p0 mu rotational_form in
  let L3 := FSub (Dx (Inner (Coef ui) (Arg v)))
              (Dx (Scale (SDiv (SConst dt) (SConst rho))
                     (Inner (Grad phi) (Arg v)))) in
  let p := velocity_correction_parameters tol verbose in
  let A := assemble_matrix B σ a3 in
  let b := assemble_vector B σ L3 in
  let out := linear_variational_solve B A b u_bcs p in
  _compute_velocity_correction B ui u u_bcs p1 p0 v mu rho dt rotational_form
    tol verbose w
  = (if out.2 then Ok u1 else Raise RuntimeError,
     add_trace B [EvLinearSolve B A b u1 u_bcs p out.2]
       (set_store B (<[l := out.1]> σ) w)).
Proof.
  intros Hu l u1 σ a3 phi L3 p A b out.
  unfold _compute_velocity_correction, solve_linear, getitem.
  rewrite Hu. run. fold l u1 σ a3 phi L3 p A b out.
  destruct out as [x c]. cbn. rewrite orb_false_r. destruct c; reflexivity.
Qed.

Lemma calls_app {A} (m : M B A) (w : world B) evs :
  trace B (m w).2 = trace B w ++ evs → calls B m w = evs.
Proof.
  intros H. unfold calls. rewrite H. apply drop_app_length.
Qed.

End Runs.

(** ** One time step *)

Section Step.

Variable B : Backend.

#[local] Arguments _compute_tentative_velocity : simpl never.
#[local] Arguments _compute_pressure : simpl never.
#[local] Arguments _compute_velocity_correction : simpl never.
#[local] Arguments with_Message : simpl never.

Variables (dt : Constant) (u : gmap Z Function) (p0 : Function)
  (u_bcs : list DirichletBC) (p_bcs : option (list DirichletBC))
  (rho mu : Constant) (time_step_method : string) (f : gmap Z expr)
  (rotational_form verbose : bool) (tol : Qc) (w : world B).
Variables (u0 : Function) (alpha : Qc) (F1 : form).

(** The objects of the three stages, in the order the step creates them. *)
Let V := function_space u0.
Let v := TestFunction V.
Let l1 := fresh (dom (store B w)).
Let ui := mkFunction l1 V.
Let σ1 := <[l1 := value B (<[l1 := zeroE B]> (store B w)) u0]>
            (<[l1 := zeroE B]> (store B w)).
Let prm1 := tentative_velocity_parameters (decimal 1 10).
Let out1 := newton B σ1 F1 ui u_bcs (derivative F1 ui) prm1.
Let ev1 :=
  EvNewtonSolve B F1 ui u_bcs (derivative F1 ui) prm1 (value B σ1 ui) out1.2.
Let σ1' := <[l1 := out1.1]> σ1.
Let P := function_space p0.
Let l2 := fresh (dom σ1').
Let p1 := mkFunction l2 P.
Let σ2 := <[l2 := zeroE B]> σ1'.
Let A2 := assemble_matrix B σ2 (pressure_a2 P).
Let b2 :=
  assemble_vector B σ2
    (pressure_L2 P p0 alpha rho dt mu (Div (Coef ui)) rotational_form).
Let opts2 :=
  if truthy p_bcs then petsc_options B w
  else <["pc_hypre_boomeramg_relax_type_coarse" := "jacobi"]>
         (petsc_options B w).
Let out2 :=
  if truthy p_bcs
  then linear_variational_solve B A2 b2 (default [] p_bcs)
         (pressure_dirichlet_parameters tol verbose)
  else petsc_krylov_solve B opts2 "cg" "hypre_amg"
         (pressure_neumann_parameters tol verbose) A2 (value B σ2 p1) b2.
Let ev2 :=
  if truthy p_bcs
  then EvLinearSolve B A2 b2 p1 (default [] p_bcs)
         (pressure_dirichlet_parameters tol verbose) out2.2
  else EvKrylovSolve B "cg" "hypre_amg"
         (pressure_neumann_parameters tol verbose) A2 p1 b2 out2.2.
Let σ2' := <[l2 := out2.1]> σ2.
Let l3 := fresh (dom σ2').
Let u1 := mkFunction l3 V.
Let σ3 := <[l3 := zeroE B]> σ2'.
Let A3 :=
  assemble_matrix B σ3 (Dx (Inner (Arg (TrialFunction V)) (Arg v))).
Let b3 :=
  assemble_vector B σ3
    (FSub (Dx (Inner (Coef ui) (Arg v)))
       (Dx (Scale (SDiv (SConst dt) (SConst rho))
              (Inner (Grad (velocity_correction_phi ui p1 p0 mu
                              rotational_form)) (Arg v))))).
Let prm3 := velocity_correction_parameters tol verbose.
Let out3 := linear_variational_solve B A3 b3 u_bcs prm3.
Let ev3 := EvLinearSolve B A3 b3 u1 u_bcs prm3 out3.2.
Let σ3' := <[l3 := out3.1]> σ3.
Let log1 :=
  [EvMessage B true "Computing tentative velocity"; ev1;
   EvMessage B false "Computing tentative velocity"].
Let log2 :=
  [EvMessage B true "Computing pressure"; ev2;
   EvMessage B false "Computing pressure"].
Let log3 :=
  [EvMessage B true "Computing velocity correction"; ev3;
   EvMessage B false "Computing velocity correction"].

Hypothesis Hdt : 0 < values0 dt.
Hypothesis Hmu : 0 < values0 mu.
Hypothesis Hu : u !! 0%Z = Some u0.
Hypothesis HF :
  tentative_velocity_residual time_step_method u0 ui p0 f rho mu dt v
  = Ok (alpha, F1).

Lemma step_run :
  _step B dt u p0 u_bcs p_bcs rho mu time_step_method f rotational_form
    verbose tol w
  = if out1.2 then
      if out2.2 then
        (if out3.2 then Ok (u1, p1) else Raise RuntimeError,
         mkWorld B σ3' opts2 (trace B w ++ log1 ++ log2 ++ log3))
      else (Raise RuntimeError, mkWorld B σ2' opts2 (trace B w ++ log1 ++ log2))
    else (Raise RuntimeError,
          mkWorld B σ1' (petsc_options B w) (trace B w ++ log1)).
Proof.
  unfold _step.
  rewrite (bool_decide_eq_true_2 _ Hdt), (bool_decide_eq_true_2 _ Hmu).
  unfold getitem at 1. rewrite Hu.
  unfold mbind at 1 2 3 4. unfold M_bind, bind, lift, py_assert. cbn.
  rewrite with_Message_run.
  erewrite tentative_velocity_run; [| exact Hu | exact HF].
  cbn. fold V v l1 ui σ1 prm1 out1 ev1 σ1'.
  destruct (out1.2) eqn:Ho1; cbn.
  2:{ unfold log1, add_trace, set_store. cbn.
      rewrite <- !app_assoc. reflexivity. }
  unfold mbind at 1 2. unfold M_bind, bind.
  rewrite with_Message_run.
  assert (Hp : _compute_pressure B (Some p0) alpha rho dt mu (Div (Coef ui))
      p_bcs None rotational_form tol verbose
      (add_trace B [EvMessage B true "Computing pressure"]
        (add_trace B [EvMessage B false "Computing tentative velocity"]
           (add_trace B [ev1]
              (set_store B σ1'
                 (add_trace B
                    [EvMessage B true "Computing tentative velocity"] w)))))
      = (if out2.2 then Ok p1 else Raise RuntimeError,
         mkWorld B σ2' opts2
           (trace B w ++ log1 ++
            [EvMessage B true "Computing pressure"; ev2]))).
  { unfold ev2, opts2, σ2'. unfold out2, opts2.
    destruct (truthy p_bcs) eqn:Hb.
    - rewrite pressure_dirichlet_run by exact Hb.
      unfold log1, add_trace, set_store. cbn.
      rewrite <- !app_assoc. reflexivity.
    - rewrite pressure_neumann_run by exact Hb.
      unfold log1, add_trace, set_store. cbn.
      rewrite <- !app_assoc. reflexivity. }
  rewrite Hp. cbn.
  destruct (out2.2) eqn:Ho2; cbn.
  2:{ unfold log1, log2, add_trace. cbn. rewrite <- !app_assoc. reflexivity. }
  rewrite with_Message_run.
  erewrite velocity_correction_run by exact Hu.
  cbn. fold V v l3 u1 σ3 A3 b3 prm3 out3. fold ev3 σ3'.
  unfold log1, log2, log3, add_trace, set_store. cbn.
  rewrite <- !app_assoc. cbn.
  destruct (out3.2); reflexivity.
Qed.

(** The three objects are allocated outside the store the step started
    from, at three different locations. *)
Lemma step_locations :
  (l1 ∉ dom (store B w)) ∧ (l2 ∉ dom (store B w)) ∧ (l3 ∉ dom (store B w))
  ∧ l1 ≠ l2 ∧ l1 ≠ l3 ∧ l2 ≠ l3.
Proof using Type.
  clear Hdt Hmu Hu HF.
  pose proof (is_fresh (dom (store B w))) as H1.
  pose proof (is_fresh (dom σ1')) as H2.
  pose proof (is_fresh (dom σ2')) as H3.
  fold l1 in H1. fold l2 in H2. fold l3 in H3.
  unfold σ2', σ2, σ1', σ1 in H2, H3. rewrite !dom_insert_L in H2, H3.
  set_solver.
Qed.

Lemma step_outcome :
  outcome B (_step B dt u p0 u_bcs p_bcs rho mu time_step_method f
               rotational_form verbose tol) w
  = if out1.2 && out2.2 && out3.2 then Ok (u1, p1) else Raise RuntimeError.
Proof.
  unfold outcome. rewrite step_run.
  destruct (out1.2), (out2.2), (out3.2); reflexivity.
Qed.

Lemma step_store :
  store B (_step B dt u p0 u_bcs p_bcs rho mu time_step_method f
             rotational_form verbose tol w).2
  = if out1.2 then if out2.2 then σ3' else σ2' else σ1'.
Proof.
  rewrite step_run. destruct (out1.2), (out2.2); reflexivity.
Qed.

Lemma step_calls :
  calls B (_step B dt u p0 u_bcs p_bcs rho mu time_step_method f
             rotational_form verbose tol) w
  = if out1.2 then if out2.2 then log1 ++ log2 ++ log3 else log1 ++ log2
    else log1.
Proof.
  apply calls_app. rewrite step_run.
  destruct (out1.2), (out2.2); reflexivity.
Qed.

Lemma step_solves :
  solves B (calls B (_step B dt u p0 u_bcs p_bcs rho mu time_step_method f
                       rotational_form verbose tol) w)
  = if out1.2 then if out2.2 then [ev1; ev2; ev3] else [ev1; ev2]
    else [ev1].
Proof.
  rewrite step_calls. unfold log1, log2, log3, ev2.
  destruct (out1.2), (out2.2), (truthy p_bcs); reflexivity.
Qed.

End Step.

(** * Preconditions of a step *)

Section Preconditions.

Variable B : Backend.

Variables (dt : Constant) (u : gmap Z Function) (p0 : Function)
  (u_bcs : list DirichletBC) (p_bcs : option (list DirichletBC))
  (rho mu : Constant) (time_step_method : string) (f : gmap Z expr)
  (rotational_form verbose : bool) (tol : Qc) (w : world B).

(** A non-positive [dt] is rejected before anything is done. *)
Lemma step_rejects_dt :
  ¬ 0 < values0 dt →
  _step B dt u p0 u_bcs p_bcs rho mu time_step_method f rotational_form
    verbose tol w = (Raise AssertionError, w).
Proof.
  intros H. unfold _step. rewrite (bool_decide_eq_false_2 _ H). reflexivity.
Qed.

(** A non-positive [mu] is rejected before anything is done. *)
Lemma step_rejects_mu :
  0 < values0 dt → ¬ 0 < values0 mu →
  _step B dt u p0 u_bcs p_bcs rho mu time_step_method f rotational_form
    verbose tol w = (Raise AssertionError, w).
Proof.
  intros Hdt H. unfold _step.
  rewrite (bool_decide_eq_true_2 _ Hdt), (bool_decide_eq_false_2 _ H).
  reflexivity.
Qed.

Lemma step_missing_u0 :
  0 < values0 dt → 0 < values0 mu → u !! 0%Z = None →
  _step B dt u p0 u_bcs p_bcs rho mu time_step_method f rotational_form
    verbose tol w = (Raise KeyError, w).
Proof.
  intros Hdt Hmu H. unfold _step, getitem.
  rewrite (bool_decide_eq_true_2 _ Hdt), (bool_decide_eq_true_2 _ Hmu), H.
  reflexivity.
Qed.

(** When the residual cannot be built (unknown method, missing force) the
    tentative velocity has been allocated and nothing was solved. *)
Lemma step_residual_error u0 e :
  0 < values0 dt → 0 < values0 mu → u !! 0%Z = Some u0 →
  let l := fresh (dom (store B w)) in
  tentative_velocity_residual time_step_method u0
    (mkFunction l (function_space u0)) p0 f rho mu dt
    (TestFunction (function_space u0)) = Raise e →
  _step B dt u p0 u_bcs p_bcs rho mu time_step_method f rotational_form
    verbose tol w
  = (Raise e,
     mkWorld B (<[l := zeroE B]> (store B w)) (petsc_options B w)
       (trace B w ++ [EvMessage B true "Computing tentative velocity";
                      EvMessage B false "Computing tentative velocity"])).
Proof.
  intros Hdt Hmu Hu l HF.
  unfold _step, _compute_tentative_velocity, getitem.
  rewrite (bool_decide_eq_true_2 _ Hdt), (bool_decide_eq_true_2 _ Hmu), Hu.
  unfold with_Message. run. fold l. rewrite HF. cbn.
  rewrite <- app_assoc. reflexivity.
Qed.

End Preconditions.

(** Nothing in a step looks at the sign of [rho]: once [dt] and [mu] are
    positive and the residual is built, the Newton solve is attempted and the
    step ends normally or with a solver error, whatever [rho] is. *)
Lemma step_does_not_check_rho (B : Backend) dt (u : gmap Z Function) p0
    u_bcs p_bcs rho mu time_step_method (f : gmap Z expr)
    (rotational_form verbose : bool) tol (w : world B) u0 alpha F1 :
  0 < values0 dt → 0 < values0 mu → u !! 0%Z = Some u0 →
  tentative_velocity_residual time_step_method u0
    (mkFunction (fresh (dom (store B w))) (function_space u0)) p0 f rho mu dt
    (TestFunction (function_space u0)) = Ok (alpha, F1) →
  let step := _step B dt u p0 u_bcs p_bcs rho mu time_step_method f
                rotational_form verbose tol in
  outcome B step w ≠ Raise AssertionError
  ∧ solves B (calls B step w) ≠ [].
Proof.
  intros Hdt Hmu Hu HF step. unfold step.
  rewrite (step_solves B dt u p0 u_bcs p_bcs rho mu time_step_method f
             rotational_form verbose tol w u0 alpha F1 Hdt Hmu Hu HF).
  rewrite (step_outcome B dt u p0 u_bcs p_bcs rho mu time_step_method f
             rotational_form verbose tol w u0 alpha F1 Hdt Hmu Hu HF).
  cbv zeta.
  repeat match goal with
         | |- context [ if ?c then _ else _ ] => destruct c
         end; split; discriminate.
Qed.

(** The names of the methods are matched literally: the hyphenated
    ['forward-euler'] is none of the three and fails the assertion. *)
Lemma hyphenated_method_is_rejected :
  outcome Example.B
    (_step Example.B Example.tenth_c Example.u_hist Example.p_prev [] None
       Example.one_c Example.one_c "forward-euler" Example.f_hist false true
       (decimal 1 10))
    (Example.w0 Example.B Example.store0)
  = Raise AssertionError.
Proof. vm_compute. reflexivity. Qed.

(** C1.  A step called with a non-positive density is not rejected: with
    [rho = -1] (and [dt = mu = 1]) the step passes its assertions, runs all
    three sub-solves and returns a velocity and a pressure. *)
Theorem C1_nonpositive_rho_is_accepted :
  let step :=
    _step Example.B Example.one_c Example.u_hist Example.p_prev [] None
      Example.minus_one_c Example.one_c "backward euler" Example.f_hist
      false true (decimal 1 10) in
  let w := Example.w0 Example.B Example.store0 in
  values0 Example.minus_one_c <= 0 ∧
  (∃ r, outcome Example.B step w = Ok r) ∧
  length (solves Example.B (calls Example.B step w)) = 3%nat.
Proof.
  cbv zeta. split; [| split].
  - vm_compute. discriminate.
  - eexists. vm_compute. reflexivity.
  - vm_compute. reflexivity.
Qed.

(** * The polynomial backend is lawful *)

Lemma Poly_laws (newton_ok linear_ok krylov_ok : bool) :
  BackendLaws (Poly.backend newton_ok linear_ok krylov_ok).
Proof.
  split; cbn.
  - intros c [a0 a1 a2]. unfold Poly.integral, Poly.scale, Qcdiv. cbn. ring.
  - intros [a0 a1 a2] [b0 b1 b2].
    unfold Poly.integral, Poly.sub, Qcdiv. cbn. ring.
  - intros c [a0 a1 a2] [b0 b1 b2].
    unfold Poly.mul, Poly.scale. cbn. f_equal; ring.
  - intros [a0 a1 a2] [b0 b1 b2].
    unfold Poly.deriv, Poly.sub. cbn. f_equal; ring.
  - intros [a0 a1 a2] [b0 b1 b2] [d0 d1 d2].
    unfold Poly.mul, Poly.sub. cbn. f_equal; ring.
  - intros a a' L L' bcs p _ HL. unfold Poly.load. rewrite !HL. reflexivity.
  - intros opts method prec p A A' x b b' _ Hb. unfold Poly.load.
    rewrite !Hb. reflexivity.
Qed.

(** Two polynomials with equal coefficients are equal. *)
Lemma poly_ext (a b : Poly.poly) :
  (Poly.c0 a == Poly.c0 b)%Q → (Poly.c1 a == Poly.c1 b)%Q →
  (Poly.c2 a == Poly.c2 b)%Q → a = b.
Proof.
  destruct a, b. cbn. intros H0 H1 H2.
  apply Qc_is_canon in H0, H1, H2. congruence.
Qed.

(** * The exact backend is lawful *)

Lemma Exact_laws : BackendLaws Exact.backend.
Proof.
  split; cbn.
  - intros c [a0 a1 a2]. unfold Poly.integral, Poly.scale, Qcdiv. cbn. ring.
  - intros [a0 a1 a2] [b0 b1 b2].
    unfold Poly.integral, Poly.sub, Qcdiv. cbn. ring.
  - intros c [a0 a1 a2] [b0 b1 b2].
    unfold Poly.mul, Poly.scale. cbn. f_equal; ring.
  - intros [a0 a1 a2] [b0 b1 b2].
    unfold Poly.deriv, Poly.sub. cbn. f_equal; ring.
  - intros [a0 a1 a2] [b0 b1 b2] [d0 d1 d2].
    unfold Poly.mul, Poly.sub. cbn. f_equal; ring.
  - intros a a' L L' bcs p Ha HL. unfold Exact.solve3.
    rewrite !Ha, !HL. reflexivity.
  - intros opts method prec p A A' x b b' HA Hb. unfold Exact.solve2.
    rewrite !HA, !Hb. reflexivity.
Qed.

Lemma Exact_field_laws : FieldLaws Exact.backend.
Proof.
  split; cbn.
  - intros [a0 a1 a2] [b0 b1 b2].
    unfold Poly.integral, Poly.add, Qcdiv. cbn. ring.
  - unfold Poly.integral, Poly.zero, Qcdiv. cbn. ring.
  - intros [a0 a1 a2] [b0 b1 b2].
    unfold Poly.deriv, Poly.add. cbn. f_equal; ring.
  - intros c [a0 a1 a2]. unfold Poly.deriv, Poly.scale. cbn. f_equal; ring.
  - unfold Poly.deriv, Poly.zero. cbn. f_equal; ring.
  - intros [a0 a1 a2] [b0 b1 b2] [d0 d1 d2].
    unfold Poly.mul, Poly.add. cbn. f_equal; ring.
  - intros c [a0 a1 a2] [b0 b1 b2].
    unfold Poly.mul, Poly.scale. cbn. f_equal; ring.
  - intros [a0 a1 a2]. unfold Poly.mul, Poly.zero. cbn. f_equal; ring.
Qed.

(** * The forms of the pressure step and of the velocity correction *)

Section Forms.

Variable B : Backend.
Hypothesis HL : BackendLaws B.

(** Allocating a [Function] changes the value of no expression. *)
Lemma eden_alloc (σ : gmap nat (E B)) l t q e :
  σ !! l = None →
  eden B (mkEnv B (<[l := zeroE B]> σ) t q) e = eden B (mkEnv B σ t q) e.
Proof.
  intros Hl. induction e; cbn; try congruence.
  apply value_alloc, Hl.
Qed.

Lemma pressure_a2_den ρ P :
  fden B ρ (pressure_a2 P) = spec_pressure_bilinear B (e_trial B ρ) (e_test B ρ).
Proof. reflexivity. Qed.

Lemma pressure_L2_den ρ P p0 alpha rho dt mu div_ui rotational_form :
  fden B ρ (pressure_L2 P p0 alpha rho dt mu div_ui rotational_form)
  = spec_pressure_linear B alpha (values0 rho) (values0 dt) (values0 mu)
      (eden B ρ div_ui) (value B (e_store B ρ) p0) (e_test B ρ)
      rotational_form.
Proof.
  unfold pressure_L2, spec_pressure_linear.
  destruct rotational_form; cbn;
    rewrite ?(mul_scale_l B HL), !(intdx_scale B HL);
    unfold Qcdiv; ring.
Qed.

(** If [p] solves the pressure problem against a test function, then the
    increment [p - p0] solves the problem without the carried-forward term:
    the unknown is the new pressure itself. *)
Lemma pressure_increment alpha rho dt mu (div_u p0 p q : E B) rotational_form :
  spec_pressure_bilinear B p q
    = spec_pressure_linear B alpha rho dt mu div_u p0 q rotational_form →
  spec_pressure_bilinear B (subE B p p0) q
    = spec_pressure_source B alpha rho dt mu div_u q rotational_form.
Proof.
  unfold spec_pressure_bilinear, spec_pressure_linear, spec_pressure_source.
  intros H.
  rewrite (grad_sub B HL), (dot_sub_l B HL), (intdx_sub B HL), H. ring.
Qed.

End Forms.

(** C2.  Whatever its arguments and whichever solver path is taken, the
    pressure step solves exactly one linear system.  Its matrix is the
    bilinear form [∫∇p·∇q]; its right-hand side is
    [−α ρ/dt ∫div(u_star) q + ∫∇p0·∇q], minus [mu ∫∇(div u_star)·∇q] exactly
    when [rotational_form] is set.  The unknown is a new [Function]: the
    solver is called on this system, what it returns is stored there and,
    when it converged, that [Function] is the pressure returned; no other
    [Function] changes.  Because of the carried-forward term a solution of
    the system is the new pressure itself: where the returned pressure
    satisfies the system, it is its difference to [p0] that solves the
    problem with the bare source. *)
Theorem C2_pressure_system (B : Backend) (HL : BackendLaws B)
    p0 alpha rho dt mu div_ui p_bcs pfs (rotational_form : bool) tol verbose
    (w : world B) :
  let pressure :=
    _compute_pressure B (Some p0) alpha rho dt mu div_ui p_bcs pfs
      rotational_form tol verbose in
  let div_u q := eden B (mkEnv B (store B w) (zeroE B) q) div_ui in
  let p_old := value B (store B w) p0 in
  let p1 := mkFunction (fresh (dom (store B w))) (function_space p0) in
  let p_new := value B (store B (pressure w).2) p1 in
  let relax := "pc_hypre_boomeramg_relax_type_coarse" in
  ∃ ev A b,
    solves B (calls B pressure w) = [ev]
    ∧ system_of B ev = Some (A, b)
    ∧ (∀ p q, A p q = spec_pressure_bilinear B p q)
    ∧ (∀ q, b q = spec_pressure_linear B alpha (values0 rho) (values0 dt)
                    (values0 mu) (div_u q) p_old q rotational_form)
    ∧ (∀ p q, A p q = b q →
         spec_pressure_bilinear B (subE B p p_old) q
         = spec_pressure_source B alpha (values0 rho) (values0 dt)
             (values0 mu) (div_u q) q rotational_form)
    ∧ unknown_of B ev = Some p1
    ∧ (fn_loc p1 ∉ dom (store B w))
    ∧ (let out :=
         if truthy p_bcs
         then linear_variational_solve B A b (default [] p_bcs)
                (pressure_dirichlet_parameters tol verbose)
         else petsc_krylov_solve B
                (<[relax := "jacobi"]> (petsc_options B w)) "cg" "hypre_amg"
                (pressure_neumann_parameters tol verbose) A (zeroE B) b in
       converged_of B ev = Some out.2
       ∧ p_new = out.1
       ∧ outcome B pressure w = (if out.2 then Ok p1 else Raise RuntimeError))
    ∧ (∀ g, fn_loc g ≠ fn_loc p1 →
         value B (store B (pressure w).2) g = value B (store B w) g)
    ∧ (∀ q, A p_new q = b q →
         spec_pressure_bilinear B (subE B p_new p_old) q
         = spec_pressure_source B alpha (values0 rho) (values0 dt)
             (values0 mu) (div_u q) q rotational_form).
Proof.
  intros pressure div_u p_old p1 p_new relax.
  set (l := fresh (dom (store B w))).
  set (σ := <[l := zeroE B]> (store B w)).
  set (A := assemble_matrix B σ (pressure_a2 (function_space p0))).
  set (b := assemble_vector B σ
              (pressure_L2 (function_space p0) p0 alpha rho dt mu div_ui
                 rotational_form)).
  assert (HA : ∀ p q, A p q = spec_pressure_bilinear B p q)
    by reflexivity.
  assert (Hb : ∀ q, b q = spec_pressure_linear B alpha (values0 rho)
                 (values0 dt) (values0 mu) (div_u q) p_old q rotational_form).
  { intros q. unfold b, assemble_vector. rewrite (pressure_L2_den B HL). cbn.
    unfold σ. rewrite eden_alloc, value_alloc by apply fresh_None.
    reflexivity. }
  assert (Hinc : ∀ p q, A p q = b q →
            spec_pressure_bilinear B (subE B p p_old) q
            = spec_pressure_source B alpha (values0 rho) (values0 dt)
                (values0 mu) (div_u q) q rotational_form).
  { intros p q H. apply (pressure_increment B HL).
    rewrite <- HA, <- Hb. exact H. }
  assert (Hfresh : fn_loc p1 ∉ dom (store B w)) by apply is_fresh.
  assert (Hz : value B σ p1 = zeroE B).
  { unfold value, σ, p1. cbn [fn_loc]. fold l. rewrite lookup_insert_eq.
    reflexivity. }
  assert (Hframe : ∀ x g, fn_loc g ≠ fn_loc p1 →
            value B (<[l := x]> σ) g = value B (store B w) g).
  { intros x g Hg. unfold value, σ.
    rewrite !lookup_insert_ne by (intros E; apply Hg; symmetry; exact E).
    reflexivity. }
  assert (Hnew : ∀ x, value B (<[l := x]> σ) p1 = x).
  { intros x. unfold value, p1. cbn [fn_loc]. fold l.
    rewrite lookup_insert_eq. reflexivity. }
  destruct (truthy p_bcs) eqn:Hbcs.
  - pose proof (pressure_dirichlet_run B p0 alpha rho dt mu div_ui p_bcs pfs
                  rotational_form tol verbose w Hbcs) as Hrun.
    cbv zeta in Hrun. fold p1 in Hrun. fold l in Hrun. fold σ in Hrun.
    fold A b in Hrun.
    fold pressure in Hrun.
    eexists _, A, b.
    unfold p_new, calls, outcome. rewrite Hrun.
    cbn [fst snd add_trace set_store trace store].
    rewrite drop_app_length. cbn [solves filter].
    split; [reflexivity |]. split; [reflexivity |].
    split; [exact HA |]. split; [exact Hb |]. split; [exact Hinc |].
    split; [reflexivity |]. split; [exact Hfresh |].
    split; [split; [reflexivity | split; [apply Hnew | reflexivity]] |].
    split; [apply Hframe |]. intros q. apply Hinc.
  - pose proof (pressure_neumann_run B p0 alpha rho dt mu div_ui p_bcs pfs
                  rotational_form tol verbose w Hbcs) as Hrun.
    cbv zeta in Hrun. fold p1 in Hrun. fold l in Hrun. fold σ in Hrun.
    fold A b in Hrun.
    fold pressure in Hrun. rewrite Hz in Hrun.
    eexists _, A, b.
    unfold p_new, calls, outcome. rewrite Hrun.
    cbn [fst snd trace store].
    rewrite drop_app_length. cbn [solves filter].
    split; [reflexivity |]. split; [reflexivity |].
    split; [exact HA |]. split; [exact Hb |]. split; [exact Hinc |].
    split; [reflexivity |]. split; [exact Hfresh |].
    split; [split; [reflexivity | split; [apply Hnew | reflexivity]] |].
    split; [apply Hframe |]. intros q. apply Hinc.
Qed.

Lemma C2_pressure_system_witness :
  let B := Exact.backend in
  let w := Example.w0 B Exact.store1 in
  let pressure :=
    _compute_pressure B (Some Example.p_prev) 1 Example.one_c Example.tenth_c
      Example.one_c (Div (Coef Exact.u_star)) None None true (decimal 1 10)
      true in
  let div_u := Poly.deriv Poly.X2 in
  let p_old := Poly.add Poly.one Poly.X in
  let p1 := mkFunction 5 Example.Q in
  let p_new := value B (store B (pressure w).2) p1 in
  BackendLaws B
  ∧ (∃ ev A b,
       solves B (calls B pressure w) = [ev]
       ∧ system_of B ev = Some (A, b)
       ∧ (∀ p q, A p q = spec_pressure_bilinear B p q)
       ∧ (∀ q, b q = spec_pressure_linear B 1 1 (decimal 1 1) 1 div_u p_old q
                       true)
       ∧ unknown_of B ev = Some p1
       ∧ converged_of B ev = Some true)
  ∧ outcome B pressure w = Ok p1
  ∧ p_new = Poly.mkPoly 0 (Q2Qc (-83 # 3)) (decimal 20 0)
  ∧ value B (store B (pressure w).2) Example.p_prev = p_old
  ∧ 1 * intdx B (dotE B (gradE B div_u) (gradE B Poly.X)) ≠ 0
  ∧ spec_pressure_bilinear B p_new Poly.X
    = spec_pressure_linear B 1 1 (decimal 1 1) 1 div_u p_old Poly.X true
  ∧ spec_pressure_bilinear B (Poly.sub p_new p_old) Poly.X
    = spec_pressure_source B 1 1 (decimal 1 1) 1 div_u Poly.X true.
Proof.
  intros B w pressure div_u p_old p1 p_new.
  assert (Ho : outcome B pressure w = Ok p1) by (vm_compute; reflexivity).
  assert (Hsolved : spec_pressure_bilinear B p_new Poly.X
                    = spec_pressure_linear B 1 1 (decimal 1 1) 1 div_u p_old
                        Poly.X true)
    by (apply Qc_is_canon; vm_compute; reflexivity).
  destruct (C2_pressure_system B Exact_laws Example.p_prev 1 Example.one_c
              Example.tenth_c Example.one_c (Div (Coef Exact.u_star)) None
              None true (decimal 1 10) true w)
    as (ev & A & b & Hs & Hsys & HA & Hb & _ & Hun & _ & (Hc & _ & Hout)
        & Hframe & Hinc).
  split; [exact Exact_laws |].
  split.
  { exists ev, A, b. split; [exact Hs |]. split; [exact Hsys |].
    split; [exact HA |]. split; [exact Hb |]. split; [exact Hun |].
    rewrite Hc. fold pressure in Hout. rewrite Ho in Hout.
    match type of Hout with
    | _ = (if ?c then _ else _) => destruct c; [reflexivity | discriminate]
    end. }
  split; [exact Ho |].
  split; [apply poly_ext; vm_compute; reflexivity |].
  split; [apply (Hframe Example.p_prev); discriminate |].
  split; [vm_compute; discriminate |].
  split; [exact Hsolved |].
  apply (Hinc Poly.X). rewrite HA, Hb. exact Hsolved.
Defined.

(** * The tentative velocity *)

Lemma decimal_half : decimal 5 1 = / decimal 2 0.
Proof. apply Qc_is_canon. reflexivity. Qed.

Section TentativeVelocity.

Variable B : Backend.

#[local] Arguments _rhs_weak : simpl never.

(** For each of the three methods the residual is built when the forces it
    reads are there, and the weight is [1.0]. *)
Lemma residual_ok (m : time_method) u0 ui p0 (f : gmap Z expr) rho mu dt v
    f0 f1 :
  f !! 0%Z = Some f0 → f !! 1%Z = Some f1 →
  ∃ F1,
    tentative_velocity_residual (method_name m) u0 ui p0 f rho mu dt v
      = Ok (1, F1)
    ∧ ∀ ρ, fden B ρ F1
           = spec_residual B (values0 dt) (values0 rho)
               (eden B ρ (Coef ui)) (eden B ρ (Coef u0)) (eden B ρ (Arg v))
               (spec_rhs m (fden B ρ (_rhs_weak u0 v f0 rho mu p0))
                           (fden B ρ (_rhs_weak ui v f1 rho mu p0))).
Proof.
  intros Hf0 Hf1. unfold tentative_velocity_residual, getitem.
  destruct m; cbn; rewrite ?Hf0, ?Hf1; cbn; eexists; (split; [reflexivity |]);
    intros ρ; unfold spec_residual; cbn; try reflexivity.
  rewrite decimal_half. unfold Qcdiv. ring.
Qed.

(** A method name other than the three fails the assertion. *)
Lemma residual_unknown_method name u0 ui p0 (f : gmap Z expr) rho mu dt v :
  name ≠ "forward euler" → name ≠ "backward euler" →
  name ≠ "crank-nicolson" →
  tentative_velocity_residual name u0 ui p0 f rho mu dt v
  = Raise AssertionError.
Proof.
  intros H1 H2 H3. unfold tentative_velocity_residual.
  apply String.eqb_neq in H1, H2, H3. rewrite H1, H2, H3. reflexivity.
Qed.


(** Allocating the unknown and assigning [u[0]] to it amounts to one write
    of the value of [u[0]] at the new location. *)
Lemma alloc_assign (σ : gmap nat (E B)) (u0 : Function) :
  let l := fresh (dom σ) in
  <[l := value B (<[l := zeroE B]> σ) u0]> (<[l := zeroE B]> σ)
  = <[l := value B σ u0]> σ.
Proof.
  intros l. rewrite insert_insert_eq.
  rewrite value_alloc by apply fresh_None. reflexivity.
Qed.

(** C4.  The tentative velocity is computed by one call of Newton's method:
    the Jacobian is the derivative of the residual with respect to the
    unknown, the unknown is a new [Function] that holds the value of [u[0]]
    when Newton starts, the absolute tolerance is [tol], the relative
    tolerance 0, the iteration cap 10, and non-convergence is an error.  What
    Newton reports decides the outcome: the unknown is returned when it
    converged, and otherwise the solver raises, having made no other call.
    Either way the unknown holds Newton's last iterate and no other
    [Function] has changed.  A step whose Newton solve does not converge
    raises too and attempts neither the pressure nor the correction
    solve. *)
Theorem C4_newton_solve (u : gmap Z Function) p0 (f : gmap Z expr) u_bcs
    time_step_method rho mu dt tol (w : world B) u0 alpha F1 :
  u !! 0%Z = Some u0 →
  let v := TestFunction (function_space u0) in
  let l := fresh (dom (store B w)) in
  let ui := mkFunction l (function_space u0) in
  tentative_velocity_residual time_step_method u0 ui p0 f rho mu dt v
    = Ok (alpha, F1) →
  let tentative :=
    _compute_tentative_velocity B u p0 f u_bcs time_step_method rho mu dt v
      tol in
  let prm tol :=
    mkNonlinearParameters "newton" (mkNewtonParameters 10 true tol 0 true) in
  let σ1 := <[l := value B (store B w) u0]> (store B w) in
  let out tol := newton B σ1 F1 ui u_bcs (derivative F1 ui) (prm tol) in
  (calls B tentative w
     = [EvNewtonSolve B F1 ui u_bcs (derivative F1 ui) (prm tol)
          (value B (store B w) u0) (out tol).2]
   ∧ (l ∉ dom (store B w))
   ∧ value B σ1 ui = value B (store B w) u0
   ∧ outcome B tentative w
     = (if (out tol).2 then Ok (ui, alpha) else Raise RuntimeError)
   ∧ store B (tentative w).2 = <[l := (out tol).1]> (store B w))
  ∧ ∀ p_bcs rotational_form verbose tol',
      0 < values0 dt → 0 < values0 mu →
      let step :=
        _step B dt u p0 u_bcs p_bcs rho mu time_step_method f rotational_form
          verbose tol' in
      ∃ ev rest,
        solves B (calls B step w) = ev :: rest
        ∧ unknown_of B ev = Some ui
        ∧ converged_of B ev = Some (out (decimal 1 10)).2
        ∧ (converged_of B ev = Some false →
           rest = []
           ∧ outcome B step w = Raise RuntimeError
           ∧ store B (step w).2
             = <[l := (out (decimal 1 10)).1]> (store B w)).
Proof.
  intros Hu v l ui HF tentative prm σ1 out.
  assert (Hσ : <[l := value B (<[l := zeroE B]> (store B w)) u0]>
                 (<[l := zeroE B]> (store B w)) = σ1)
    by apply alloc_assign.
  assert (Hg : value B σ1 ui = value B (store B w) u0).
  { unfold value at 1. unfold σ1. cbn [fn_loc ui]. rewrite lookup_insert_eq.
    reflexivity. }
  split.
  - pose proof (tentative_velocity_run B u p0 f u_bcs time_step_method rho mu
                  dt v tol w u0 alpha F1 Hu HF) as Hrun.
    cbv zeta in Hrun. fold l in Hrun. fold ui in Hrun. rewrite Hσ in Hrun.
    rewrite Hg in Hrun.
    change (tentative_velocity_parameters tol) with (prm tol) in Hrun.
    fold (out tol) in Hrun. fold tentative in Hrun.
    unfold calls, outcome. rewrite Hrun.
    cbn [fst snd add_trace set_store trace store].
    rewrite drop_app_length.
    split; [reflexivity |]. split; [apply is_fresh |].
    split; [exact Hg |]. split; [reflexivity |].
    unfold σ1. apply insert_insert_eq.
  - intros p_bcs rotational_form verbose tol' Hdt Hmu step.
    pose proof (step_solves B dt u p0 u_bcs p_bcs rho mu time_step_method f
                  rotational_form verbose tol' w u0 alpha F1 Hdt Hmu Hu HF)
      as Hs.
    pose proof (step_outcome B dt u p0 u_bcs p_bcs rho mu time_step_method f
                  rotational_form verbose tol' w u0 alpha F1 Hdt Hmu Hu HF)
      as Ho.
    pose proof (step_store B dt u p0 u_bcs p_bcs rho mu time_step_method f
                  rotational_form verbose tol' w u0 alpha F1 Hdt Hmu Hu HF)
      as Hst.
    cbv zeta in Hs, Ho, Hst. fold l in Hs, Ho, Hst. fold ui in Hs, Ho, Hst.
    rewrite Hσ in Hs, Ho, Hst.
    change (tentative_velocity_parameters (decimal 1 10))
      with (prm (decimal 1 10)) in Hs, Ho, Hst.
    fold (out (decimal 1 10)) in Hs, Ho, Hst. fold step in Hs, Ho, Hst.
    rewrite Hs, Ho, Hst.
    destruct (out (decimal 1 10)) as [x1 c1]. cbn [fst snd]. destruct c1.
    + match goal with
      | |- context [ if ?c then [?a; ?b; ?d] else [?a; ?b] ] =>
          exists a, (if c then [b; d] else [b]); destruct c
      end;
        (split; [reflexivity |]; split; [reflexivity |];
         split; [reflexivity | discriminate]).
    + eexists _, []. split; [reflexivity |]. split; [reflexivity |].
      split; [reflexivity |]. intros _.
      split; [reflexivity |]. split; [reflexivity |].
      unfold σ1. apply insert_insert_eq.
Qed.

End TentativeVelocity.


Lemma C4_newton_solve_witness :
  let B := Example.B_newton_fails in
  let w := Example.w0 B Example.store0 in
  let F1 := Example.F1 Example.one_c Example.one_c Example.tenth_c
              Example.p_prev in
  let tentative :=
    _compute_tentative_velocity B Example.u_hist Example.p_prev
      Example.f_hist [] "backward euler" Example.one_c Example.one_c
      Example.tenth_c Example.v (decimal 1 8) in
  let step :=
    _step B Example.tenth_c Example.u_hist Example.p_prev [] None
      Example.one_c Example.one_c "backward euler" Example.f_hist true true
      (decimal 1 8) in
  Example.u_hist !! 0%Z = Some Example.u_prev
  ∧ tentative_velocity_residual "backward euler" Example.u_prev Example.ui
      Example.p_prev Example.f_hist Example.one_c Example.one_c
      Example.tenth_c Example.v = Ok (1, F1)
  ∧ (calls B tentative w
       = [EvNewtonSolve B F1 Example.ui [] (derivative F1 Example.ui)
            (mkNonlinearParameters "newton"
               (mkNewtonParameters 10 true (decimal 1 8) 0 true))
            Poly.X false]
     ∧ outcome B tentative w = Raise RuntimeError
     ∧ store B (tentative w).2 = <[3%nat := Poly.X]> Example.store0)
  ∧ ∃ ev,
      solves B (calls B step w) = [ev]
      ∧ unknown_of B ev = Some Example.ui
      ∧ converged_of B ev = Some false
      ∧ outcome B step w = Raise RuntimeError
      ∧ store B (step w).2 = <[3%nat := Poly.X]> Example.store0.
Proof.
  intros B w F1 tentative step.
  assert (Hu : Example.u_hist !! 0%Z = Some Example.u_prev) by reflexivity.
  assert (HF : tentative_velocity_residual "backward euler" Example.u_prev
                 Example.ui Example.p_prev Example.f_hist Example.one_c
                 Example.one_c Example.tenth_c Example.v = Ok (1, F1))
    by reflexivity.
  destruct (C4_newton_solve B Example.u_hist Example.p_prev Example.f_hist []
              "backward euler" Example.one_c Example.one_c Example.tenth_c
              (decimal 1 8) w Example.u_prev 1 F1 Hu HF)
    as [(Hc & _ & _ & Ho & Hst) H2].
  split; [exact Hu |]. split; [exact HF |].
  split; [split; [exact Hc | split; [exact Ho | exact Hst]] |].
  destruct (H2 None true true (decimal 1 8)) as (ev & rest & Hs & Hun & Hcv & Hf);
    [reflexivity | reflexivity |].
  destruct (Hf Hcv) as (-> & Hos & Hss).
  exists ev. split; [exact Hs |]. split; [exact Hun |].
  split; [exact Hcv |]. split; [exact Hos | exact Hss].
Defined.

(** * Tolerances and solver parameters *)

(** C5.  In a step the Newton solve of the tentative velocity is the first
    sub-solve and its absolute tolerance is [1.0e-10] whatever [tol] is; the
    solves after it (pressure, velocity correction: two when the step
    returns) have relative tolerance [tol].  So for [tol ≠ 1.0e-10] the
    Newton tolerance is not the one the caller asked for. *)
Theorem C5_newton_tolerance_is_fixed (B : Backend) dt (u : gmap Z Function)
    p0 u_bcs p_bcs rho mu time_step_method (f : gmap Z expr)
    (rotational_form verbose : bool) tol (w : world B) u0 alpha F1 :
  0 < values0 dt → 0 < values0 mu → u !! 0%Z = Some u0 →
  tentative_velocity_residual time_step_method u0
    (mkFunction (fresh (dom (store B w))) (function_space u0)) p0 f rho mu dt
    (TestFunction (function_space u0)) = Ok (alpha, F1) →
  let step := _step B dt u p0 u_bcs p_bcs rho mu time_step_method f
                rotational_form verbose tol in
  ∃ ev rest,
    solves B (calls B step w) = ev :: rest
    ∧ n_absolute_tolerance <$> newton_of B ev = Some (decimal 1 10)
    ∧ Forall (λ e, relative_tolerance <$> krylov_of B e = Some tol) rest
    ∧ (∀ r, outcome B step w = Ok r → length rest = 2%nat)
    ∧ (tol ≠ decimal 1 10 →
       n_absolute_tolerance <$> newton_of B ev ≠ Some tol).
Proof.
  intros Hdt Hmu Hu HF step. unfold step.
  pose proof (step_solves B dt u p0 u_bcs p_bcs rho mu time_step_method f
                rotational_form verbose tol w u0 alpha F1 Hdt Hmu Hu HF)
    as Hs.
  pose proof (step_outcome B dt u p0 u_bcs p_bcs rho mu time_step_method f
                rotational_form verbose tol w u0 alpha F1 Hdt Hmu Hu HF)
    as Ho.
  cbv zeta in Hs, Ho. rewrite Hs, Ho. clear Hs Ho.
  match goal with
  | |- context [ if ?c1 then (if ?c2 then [?a; ?b; ?d] else _) else _ ] =>
      exists a, (if c1 then (if c2 then [b; d] else [b]) else []);
      destruct c1, c2
  end; cbn [andb].
  all: split; [reflexivity |].
  all: split; [reflexivity |].
  all: split;
    [ repeat constructor; destruct (truthy p_bcs); reflexivity |].
  all: split; [ try reflexivity; intros r; try discriminate;
                match goal with |- context [ if ?c then _ else _ ] =>
                  destruct c end; discriminate |].
  all: intros Hne He; apply Hne; cbn in He; congruence.
Qed.

Lemma C5_newton_tolerance_is_fixed_witness :
  let B := Example.B in
  let w := Example.w0 B Example.store0 in
  let step := _step B Example.tenth_c Example.u_hist Example.p_prev [] None
                Example.one_c Example.one_c "backward euler" Example.f_hist
                true true (decimal 1 6) in
  0 < values0 Example.tenth_c ∧ 0 < values0 Example.one_c
  ∧ Example.u_hist !! 0%Z = Some Example.u_prev
  ∧ tentative_velocity_residual "backward euler" Example.u_prev Example.ui
      Example.p_prev Example.f_hist Example.one_c Example.one_c
      Example.tenth_c Example.v
    = Ok (1, Example.F1 Example.one_c Example.one_c Example.tenth_c
               Example.p_prev)
  ∧ ∃ ev rest,
      solves B (calls B step w) = ev :: rest
      ∧ n_absolute_tolerance <$> newton_of B ev = Some (decimal 1 10)
      ∧ Forall (λ e, relative_tolerance <$> krylov_of B e
                     = Some (decimal 1 6)) rest
      ∧ (∀ r, outcome B step w = Ok r → length rest = 2%nat)
      ∧ (decimal 1 6 ≠ decimal 1 10 →
         n_absolute_tolerance <$> newton_of B ev ≠ Some (decimal 1 6)).
Proof.
  intros B w step.
  split; [reflexivity |]. split; [reflexivity |].
  split; [reflexivity |]. split; [reflexivity |].
  apply (C5_newton_tolerance_is_fixed B Example.tenth_c Example.u_hist
           Example.p_prev [] None Example.one_c Example.one_c
           "backward euler" Example.f_hist true true (decimal 1 6) w
           Example.u_prev 1
           (Example.F1 Example.one_c Example.one_c Example.tenth_c
              Example.p_prev));
    reflexivity.
Defined.

(** C6.  Without pressure Dirichlet conditions the pressure step sets the
    coarsest-level relaxation of the AMG preconditioner to Jacobi and calls
    the conjugate-gradient solver, from the zero vector, on the assembled
    matrix and on the assembled right-hand side as it is; the relative
    tolerance is [tol], the absolute tolerance 0 and the cap 1000.  With
    Dirichlet conditions the generic iterative solve is called with the same
    tolerances and cap 100.  On both paths non-convergence is an error. *)
Theorem C6_pressure_solver_paths (B : Backend) p0 alpha rho dt mu div_ui
    p_bcs pfs (rotational_form : bool) tol verbose (w : world B) :
  let P := function_space p0 in
  let l := fresh (dom (store B w)) in
  let p1 := mkFunction l P in
  let σ := <[l := zeroE B]> (store B w) in
  let A := assemble_matrix B σ (pressure_a2 P) in
  let b := assemble_vector B σ
             (pressure_L2 P p0 alpha rho dt mu div_ui rotational_form) in
  let relax := "pc_hypre_boomeramg_relax_type_coarse" in
  let pressure := _compute_pressure B (Some p0) alpha rho dt mu div_ui p_bcs
                    pfs rotational_form tol verbose in
  (truthy p_bcs = false →
   let prm := mkKrylovParameters tol 0 1000 verbose true in
   let out := petsc_krylov_solve B (<[relax := "jacobi"]> (petsc_options B w))
                "cg" "hypre_amg" prm A (zeroE B) b in
   calls B pressure w = [EvKrylovSolve B "cg" "hypre_amg" prm A p1 b out.2]
   ∧ petsc_options B (pressure w).2 !! relax = Some "jacobi"
   ∧ outcome B pressure w = (if out.2 then Ok p1 else Raise RuntimeError))
  ∧ (truthy p_bcs = true →
     let prm := mkLinearParameters "iterative" true "hypre_amg"
                  (mkKrylovParameters tol 0 100 verbose true) in
     let out := linear_variational_solve B A b (default [] p_bcs) prm in
     calls B pressure w
       = [EvLinearSolve B A b p1 (default [] p_bcs) prm out.2]
     ∧ petsc_options B (pressure w).2 = petsc_options B w
     ∧ outcome B pressure w = (if out.2 then Ok p1 else Raise RuntimeError)).
Proof.
  intros P l p1 σ A b relax pressure. split; intros Hb; cbv zeta.
  - pose proof (pressure_neumann_run B p0 alpha rho dt mu div_ui p_bcs pfs
                  rotational_form tol verbose w Hb) as Hrun.
    cbv zeta in Hrun. fold P l in Hrun. fold p1 σ in Hrun. fold A b in Hrun.
    assert (Hz : value B σ p1 = zeroE B).
    { unfold value, σ. rewrite lookup_insert_eq. reflexivity. }
    rewrite Hz in Hrun. unfold pressure_neumann_parameters in Hrun.
    unfold calls, outcome, pressure. rewrite Hrun. cbn [fst snd trace petsc_options].
    rewrite drop_app_length, lookup_insert_eq. auto.
  - pose proof (pressure_dirichlet_run B p0 alpha rho dt mu div_ui p_bcs pfs
                  rotational_form tol verbose w Hb) as Hrun.
    cbv zeta in Hrun. fold P l in Hrun. fold p1 σ in Hrun. fold A b in Hrun.
    unfold calls, outcome, pressure. rewrite Hrun.
    cbn [fst snd trace petsc_options add_trace set_store].
    rewrite drop_app_length. auto.
Qed.

Lemma C6_pressure_solver_paths_witness :
  let B := Example.B_linear_fails in
  let w := Example.w0 B Example.store0 in
  let P := Example.Q in
  let p1 := mkFunction 3 P in
  let σ := <[3%nat := Poly.zero]> Example.store0 in
  let A := assemble_matrix B σ (pressure_a2 P) in
  let b := assemble_vector B σ
             (pressure_L2 P Example.p_prev 1 Example.one_c Example.tenth_c
                Example.one_c (Div (Coef Example.u_prev)) false) in
  let relax := "pc_hypre_boomeramg_relax_type_coarse" in
  (truthy (@None (list DirichletBC)) = false
   ∧ let pressure := _compute_pressure B (Some Example.p_prev) 1
                       Example.one_c Example.tenth_c Example.one_c
                       (Div (Coef Example.u_prev)) None None false
                       (decimal 1 10) true in
     let prm := mkKrylovParameters (decimal 1 10) 0 1000 true true in
     let out := petsc_krylov_solve B (<[relax := "jacobi"]> ∅) "cg"
                  "hypre_amg" prm A Poly.zero b in
     calls B pressure w = [EvKrylovSolve B "cg" "hypre_amg" prm A p1 b out.2]
     ∧ petsc_options B (pressure w).2 !! relax = Some "jacobi"
     ∧ outcome B pressure w = (if out.2 then Ok p1 else Raise RuntimeError))
  ∧ (truthy (Some [Example.bc0]) = true
     ∧ let pressure := _compute_pressure B (Some Example.p_prev) 1
                         Example.one_c Example.tenth_c Example.one_c
                         (Div (Coef Example.u_prev)) (Some [Example.bc0])
                         None false (decimal 1 10) true in
       let prm := mkLinearParameters "iterative" true "hypre_amg"
                    (mkKrylovParameters (decimal 1 10) 0 100 true true) in
       let out := linear_variational_solve B A b [Example.bc0] prm in
       calls B pressure w = [EvLinearSolve B A b p1 [Example.bc0] prm out.2]
       ∧ petsc_options B (pressure w).2 = petsc_options B w
       ∧ outcome B pressure w
         = (if out.2 then Ok p1 else Raise RuntimeError)).
Proof.
  intros B w P p1 σ A b relax. split.
  - split; [reflexivity |].
    apply (proj1 (C6_pressure_solver_paths B Example.p_prev 1 Example.one_c
                    Example.tenth_c Example.one_c (Div (Coef Example.u_prev))
                    None None false (decimal 1 10) true w)).
    reflexivity.
  - split; [reflexivity |].
    apply (proj2 (C6_pressure_solver_paths B Example.p_prev 1 Example.one_c
                    Example.tenth_c Example.one_c (Div (Coef Example.u_prev))
                    (Some [Example.bc0]) None false (decimal 1 10) true w)).
    reflexivity.
Defined.

(** * The velocity correction *)

(** C7.  The velocity correction solves one linear system for a new
    [Function]: the matrix is the mass matrix [∫u·v], the right-hand side is
    [∫u_star·v − (dt/rho)∫∇φ·v] with [φ = p_new − p_old], to which
    [mu div(u_star)] is added exactly in rotational form; the solver has
    relative tolerance [tol], absolute tolerance 0 and at most 100
    iterations.  What the solver returns for this system is stored in the
    new [Function], which is the velocity returned when the solver
    converged; no other [Function] changes.  Where the stored velocity
    satisfies the system, it satisfies the mass-matrix equation of the
    projection. *)
Theorem C7_velocity_correction_system (B : Backend) (HL : BackendLaws B)
    ui (u : gmap Z Function) u_bcs p1 p0 V mu rho dt (rotational_form : bool)
    tol verbose (w : world B) u0 :
  u !! 0%Z = Some u0 →
  let correction :=
    _compute_velocity_correction B ui u u_bcs p1 p0 (TestFunction V) mu rho
      dt rotational_form tol verbose in
  let val := value B (store B w) in
  let phi := spec_phi B (values0 mu) (val p1) (val p0) (divE B (val ui))
               rotational_form in
  let u1 := mkFunction (fresh (dom (store B w))) (function_space u0) in
  let u_new := value B (store B (correction w).2) u1 in
  let prm := mkLinearParameters "iterative" true "hypre_amg"
               (mkKrylovParameters tol 0 100 verbose true) in
  ∃ A b,
    let out := linear_variational_solve B A b u_bcs prm in
    calls B correction w = [EvLinearSolve B A b u1 u_bcs prm out.2]
    ∧ (∀ x y, A x y = spec_correction_bilinear B x y)
    ∧ (∀ y, b y = spec_correction_linear B (values0 dt) (values0 rho)
                    (val ui) phi y)
    ∧ outcome B correction w = (if out.2 then Ok u1 else Raise RuntimeError)
    ∧ (fn_loc u1 ∉ dom (store B w))
    ∧ u_new = out.1
    ∧ (∀ g, fn_loc g ≠ fn_loc u1 →
         value B (store B (correction w).2) g = val g)
    ∧ (∀ y, A u_new y = b y →
         intdx B (innerE B u_new y)
         = intdx B (innerE B (val ui) y)
           - values0 dt / values0 rho * intdx B (innerE B (gradE B phi) y)).
Proof.
  intros Hu correction val phi u1 u_new prm.
  pose proof (velocity_correction_run B ui u u_bcs p1 p0 (TestFunction V) mu
                rho dt rotational_form tol verbose w u0 Hu) as Hrun.
  cbv zeta in Hrun. fold u1 correction in Hrun.
  set (l := fresh (dom (store B w))) in *.
  set (σ := <[l := zeroE B]> (store B w)) in *.
  match type of Hrun with
  | context [ linear_variational_solve B ?A0 ?b0 _ _ ] =>
      set (A := A0) in *; set (b := b0) in *
  end.
  assert (HA : ∀ x y, A x y = spec_correction_bilinear B x y)
    by reflexivity.
  assert (Hb : ∀ y, b y = spec_correction_linear B (values0 dt) (values0 rho)
                            (val ui) phi y).
  { intros y. unfold b, assemble_vector, spec_correction_linear, phi, spec_phi,
      velocity_correction_phi, val, σ, l.
    destruct rotational_form; cbn; rewrite (intdx_scale B HL);
      rewrite !value_alloc by apply fresh_None; reflexivity. }
  exists A, b. cbv zeta.
  unfold u_new, calls, outcome. rewrite Hrun.
  cbn [fst snd trace store add_trace set_store]. rewrite drop_app_length.
  split; [reflexivity |]. split; [exact HA |]. split; [exact Hb |].
  split; [reflexivity |]. split; [apply is_fresh |].
  assert (Hnew : value B (<[l := (linear_variational_solve B A b u_bcs
                                    (velocity_correction_parameters tol
                                       verbose)).1]> σ) u1
                 = (linear_variational_solve B A b u_bcs prm).1).
  { unfold value, u1. cbn [fn_loc]. fold l. rewrite lookup_insert_eq.
    reflexivity. }
  split; [exact Hnew |].
  split.
  { intros g Hg. unfold value, val, σ.
    rewrite !lookup_insert_ne by (intros E; apply Hg; symmetry; exact E).
    reflexivity. }
  intros y Hy. rewrite HA, Hb in Hy. exact Hy.
Qed.

Lemma C7_velocity_correction_system_witness :
  let B := Exact.backend in
  let w := Example.w0 B Exact.store1 in
  let correction :=
    _compute_velocity_correction B Exact.u_star Example.u_hist []
      Exact.p_next Example.p_prev (TestFunction Example.W) Example.one_c
      Example.one_c Example.tenth_c true (decimal 1 10) true in
  let phi := spec_phi B 1 Poly.X2 (Poly.add Poly.one Poly.X)
               (Poly.deriv Poly.X2) true in
  let u1 := mkFunction 5 Example.W in
  let u_new := value B (store B (correction w).2) u1 in
  let prm := mkLinearParameters "iterative" true "hypre_amg"
               (mkKrylovParameters (decimal 1 10) 0 100 true true) in
  BackendLaws B
  ∧ Example.u_hist !! 0%Z = Some Example.u_prev
  ∧ (∃ A b,
       calls B correction w = [EvLinearSolve B A b u1 [] prm true]
       ∧ (∀ x y, A x y = spec_correction_bilinear B x y)
       ∧ (∀ y, b y = spec_correction_linear B (decimal 1 1) 1 Poly.X2 phi y))
  ∧ outcome B correction w = Ok u1
  ∧ u_new = Poly.mkPoly (decimal (-1) 1) (decimal (-2) 1) 1
  ∧ value B (store B (correction w).2) Exact.u_star = Poly.X2
  ∧ gradE B phi ≠ Poly.zero
  ∧ Forall (λ y, spec_correction_bilinear B u_new y
                 = spec_correction_linear B (decimal 1 1) 1 Poly.X2 phi y)
      [Poly.one; Poly.X; Poly.X2]
  ∧ intdx B (innerE B u_new Poly.X)
    = intdx B (innerE B Poly.X2 Poly.X)
      - decimal 1 1 / 1 * intdx B (innerE B (gradE B phi) Poly.X).
Proof.
  intros B w correction phi u1 u_new prm.
  assert (Hu : Example.u_hist !! 0%Z = Some Example.u_prev) by reflexivity.
  assert (Ho : outcome B correction w = Ok u1) by (vm_compute; reflexivity).
  assert (Hsolved :
            Forall (λ y, spec_correction_bilinear B u_new y
                         = spec_correction_linear B (decimal 1 1) 1 Poly.X2
                             phi y)
              [Poly.one; Poly.X; Poly.X2]).
  { repeat constructor; apply Qc_is_canon; vm_compute; reflexivity. }
  destruct (C7_velocity_correction_system B Exact_laws Exact.u_star
              Example.u_hist [] Exact.p_next Example.p_prev Example.W
              Example.one_c Example.one_c Example.tenth_c true (decimal 1 10)
              true w Example.u_prev Hu)
    as (A & b & Hcalls & HA & Hb & Hout & _ & _ & Hframe & Heq).
  fold correction in Hout. rewrite Ho in Hout.
  split; [exact Exact_laws |]. split; [exact Hu |].
  split.
  { exists A, b. split; [| split; [exact HA | exact Hb]].
    etrans; [exact Hcalls |]. f_equal. f_equal.
    match type of Hout with
    | _ = (if ?c then _ else _) => destruct c; [reflexivity | discriminate]
    end. }
  split; [exact Ho |].
  split; [apply poly_ext; vm_compute; reflexivity |].
  split; [apply (Hframe Exact.u_star); discriminate |].
  split; [vm_compute; discriminate |].
  split; [exact Hsolved |].
  apply (Heq Poly.X). rewrite HA, Hb.
  apply (Forall_lookup_1 _ _ 1%nat Poly.X Hsolved). reflexivity.
Defined.

(** * The three schemes *)

(** C8.  [Chorin.step] does not use the pressure it is given beyond its
    function space: it allocates a new, zero pressure and runs the step on
    that, with method ['backward euler'] and without rotational form; two
    pressures of the same space give the same run.  [IPCS] and [Rotational]
    pass on the pressure and their own method, the latter with rotational
    form.  The declared orders are 1.0/0.5, 2.0/1.0 and 2.0/1.5. *)
Theorem C8_schemes (B : Backend) dt (u : gmap Z Function) p0 u_bcs p_bcs rho
    mu (f : gmap Z expr) (verbose : bool) tol (w : world B) :
  let l := fresh (dom (store B w)) in
  let p_zero := mkFunction l (function_space p0) in
  let w' := set_store B (<[l := zeroE B]> (store B w)) w in
  (∀ self,
     Chorin_step B self dt u p0 u_bcs p_bcs rho mu f verbose tol w
     = _step B dt u p_zero u_bcs p_bcs rho mu "backward euler" f false
         verbose tol w')
  ∧ (fn_loc p_zero ∉ dom (store B w))
  ∧ value B (store B w') p_zero = zeroE B
  ∧ (∀ self p0',
       function_space p0' = function_space p0 →
       Chorin_step B self dt u p0' u_bcs p_bcs rho mu f verbose tol w
       = Chorin_step B self dt u p0 u_bcs p_bcs rho mu f verbose tol w)
  ∧ (∀ self,
       IPCS_step B self dt u p0 u_bcs p_bcs rho mu f verbose tol w
       = _step B dt u p0 u_bcs p_bcs rho mu (IPCS_time_step_method self) f
           false verbose tol w)
  ∧ (∀ self,
       Rotational_step B self dt u p0 u_bcs p_bcs rho mu f verbose tol w
       = _step B dt u p0 u_bcs p_bcs rho mu
           (Rotational_time_step_method self) f true verbose tol w)
  ∧ (velocity Chorin_order = 1 ∧ pressure Chorin_order = 1 / decimal 2 0)
  ∧ (velocity IPCS_order = decimal 2 0 ∧ pressure IPCS_order = 1)
  ∧ (velocity Rotational_order = decimal 2 0
     ∧ pressure Rotational_order = decimal 3 0 / decimal 2 0).
Proof.
  intros l p_zero w'. repeat split.
  - apply is_fresh.
  - unfold value, w', p_zero. cbn. rewrite lookup_insert_eq. reflexivity.
  - intros self p0' HP. unfold Chorin_step. rewrite HP. reflexivity.
  - apply Qc_is_canon. reflexivity.
  - apply Qc_is_canon. reflexivity.
Qed.

Lemma C8_schemes_witness :
  let B := Example.B in
  let w := Example.w0 B Example.store0 in
  let p0' := mkFunction 7 Example.Q in
  function_space p0' = function_space Example.p_prev
  ∧ Chorin_step B mkChorin Example.tenth_c Example.u_hist p0' [] None
      Example.one_c Example.one_c Example.f_hist true (decimal 1 10) w
    = Chorin_step B mkChorin Example.tenth_c Example.u_hist Example.p_prev []
        None Example.one_c Example.one_c Example.f_hist true (decimal 1 10) w.
Proof.
  intros B w p0'. split; [reflexivity |].
  destruct (C8_schemes B Example.tenth_c Example.u_hist Example.p_prev []
              None Example.one_c Example.one_c Example.f_hist true
              (decimal 1 10) w)
    as (_ & _ & _ & Hsame & _).
  exact (Hsame mkChorin p0' eq_refl).
Defined.

(** * The rotational correction and the pressure *)





(** * Ownership of the fields *)

Section Frame.

Variable B : Backend.

Variables (dt : Constant) (u : gmap Z Function) (p0 : Function)
  (u_bcs : list DirichletBC) (p_bcs : option (list DirichletBC))
  (rho mu : Constant) (time_step_method : string) (f : gmap Z expr)
  (rotational_form verbose : bool) (tol : Qc) (w : world B).

Let step :=
  _step B dt u p0 u_bcs p_bcs rho mu time_step_method f rotational_form
    verbose tol.

Lemma alloc_subseteq (σ : gmap nat (E B)) x : σ ⊆ <[fresh (dom σ) := x]> σ.
Proof. apply insert_subseteq, fresh_None. Qed.

(** The store after a step extends the store before it. *)
Lemma step_frame : store B w ⊆ store B (step w).2.
Proof.
  unfold step.
  destruct (decide (0 < values0 dt)) as [Hdt|Hdt];
    [| rewrite step_rejects_dt by exact Hdt; reflexivity].
  destruct (decide (0 < values0 mu)) as [Hmu|Hmu];
    [| rewrite step_rejects_mu by assumption; reflexivity].
  destruct (u !! 0%Z) as [u0|] eqn:Hu;
    [| rewrite step_missing_u0 by assumption; reflexivity].
  destruct (tentative_velocity_residual time_step_method u0
              (mkFunction (fresh (dom (store B w))) (function_space u0)) p0 f
              rho mu dt (TestFunction (function_space u0)))
    as [[alpha F1]|e] eqn:HF.
  2:{ erewrite step_residual_error by eassumption. cbn. apply alloc_subseteq. }
  rewrite (step_store B dt u p0 u_bcs p_bcs rho mu time_step_method f
             rotational_form verbose tol w u0 alpha F1 Hdt Hmu Hu HF).
  pose proof (step_locations B dt p0 u_bcs p_bcs rho mu rotational_form
                verbose tol w u0 alpha F1)
    as (Hl1 & Hl2 & Hl3 & _).
  cbv zeta in *.
  repeat match goal with
         | |- context [ if ?c then _ else _ ] => destruct c
         end;
    repeat (apply insert_subseteq_r; [apply not_elem_of_dom; assumption |]);
    reflexivity.
Qed.

End Frame.

(** C10.  A step leaves every field that exists when it is called as it
    is: whatever the arguments, and whether it returns or raises, the value
    of each [Function] in the store is unchanged.  Every sub-solve writes
    into an object that did not exist before the call; the returned velocity
    and pressure and the tentative velocity are three different such
    objects.  Besides the log, all that the step leaves behind outside these
    objects is the relaxation option of PETSc. *)
Theorem C10_step_frame (B : Backend) dt (u : gmap Z Function) p0 u_bcs p_bcs
    rho mu time_step_method (f : gmap Z expr) (rotational_form verbose : bool)
    tol (w : world B) :
  let step := _step B dt u p0 u_bcs p_bcs rho mu time_step_method f
                rotational_form verbose tol in
  (∀ g : Function,
     fn_loc g ∈ dom (store B w) →
     value B (store B (step w).2) g = value B (store B w) g)
  ∧ (∀ ev x,
       ev ∈ solves B (calls B step w) → unknown_of B ev = Some x →
       fn_loc x ∉ dom (store B w))
  ∧ (∀ u1 p1,
       outcome B step w = Ok (u1, p1) →
       ∃ ev rest ui,
         solves B (calls B step w) = ev :: rest
         ∧ unknown_of B ev = Some ui
         ∧ (fn_loc u1 ∉ dom (store B w)) ∧ (fn_loc p1 ∉ dom (store B w))
         ∧ fn_loc u1 ≠ fn_loc p1 ∧ fn_loc ui ≠ fn_loc u1
         ∧ fn_loc ui ≠ fn_loc p1)
  ∧ (petsc_options B (step w).2 = petsc_options B w
     ∨ petsc_options B (step w).2
       = <["pc_hypre_boomeramg_relax_type_coarse" := "jacobi"]>
           (petsc_options B w)).
Proof.
  intros step. subst step.
  split.
  { intros g Hg. apply elem_of_dom in Hg as [x Hx]. unfold value.
    rewrite Hx.
    rewrite (lookup_weaken _ _ _ _ Hx
               (step_frame B dt u p0 u_bcs p_bcs rho mu time_step_method f
                  rotational_form verbose tol w)).
    reflexivity. }
  destruct (decide (0 < values0 dt)) as [Hdt|Hdt].
  2:{ unfold calls, outcome. rewrite step_rejects_dt by exact Hdt.
      cbn [fst snd]. rewrite drop_all.
      split; [intros ev x Hev; inversion Hev |].
      split; [discriminate | left; reflexivity]. }
  destruct (decide (0 < values0 mu)) as [Hmu|Hmu].
  2:{ unfold calls, outcome. rewrite step_rejects_mu by assumption.
      cbn [fst snd]. rewrite drop_all.
      split; [intros ev x Hev; inversion Hev |].
      split; [discriminate | left; reflexivity]. }
  destruct (u !! 0%Z) as [u0|] eqn:Hu.
  2:{ unfold calls, outcome. rewrite step_missing_u0 by assumption.
      cbn [fst snd]. rewrite drop_all.
      split; [intros ev x Hev; inversion Hev |].
      split; [discriminate | left; reflexivity]. }
  destruct (tentative_velocity_residual time_step_method u0
              (mkFunction (fresh (dom (store B w))) (function_space u0)) p0 f
              rho mu dt (TestFunction (function_space u0)))
    as [[alpha F1]|e] eqn:HF.
  2:{ unfold calls, outcome.
      erewrite step_residual_error by eassumption.
      cbn [fst snd trace petsc_options]. rewrite drop_app_length.
      split; [intros ev x Hev; inversion Hev |].
      split; [discriminate | left; reflexivity]. }
  pose proof (step_solves B dt u p0 u_bcs p_bcs rho mu time_step_method f
                rotational_form verbose tol w u0 alpha F1 Hdt Hmu Hu HF)
    as Hs.
  pose proof (step_outcome B dt u p0 u_bcs p_bcs rho mu time_step_method f
                rotational_form verbose tol w u0 alpha F1 Hdt Hmu Hu HF)
    as Ho.
  pose proof (step_run B dt u p0 u_bcs p_bcs rho mu time_step_method f
                rotational_form verbose tol w u0 alpha F1 Hdt Hmu Hu HF)
    as Hr.
  pose proof (step_locations B dt p0 u_bcs p_bcs rho mu rotational_form
                verbose tol w u0 alpha F1)
    as (Hl1 & Hl2 & Hl3 & H12 & H13 & H23).
  cbv zeta in Hs, Ho, Hr. rewrite Hs, Ho, Hr. clear Hs Ho Hr.
  split; [| split].
  - intros ev x Hev Hx.
    repeat match type of Hev with
           | context [ if ?c then _ else _ ] => destruct c
           end;
      repeat match type of Hev with
             | _ ∈ _ :: _ => apply elem_of_cons in Hev as [->|Hev]
             | _ ∈ [] => inversion Hev
             end;
      cbn in Hx; injection Hx as <-; assumption.
  - intros u1 p1 Hok.
    repeat match goal with
           | |- context [ if ?c then _ else _ ] => destruct c
           end; cbn in Hok;
      repeat match type of Hok with
             | context [ if ?c then _ else _ ] => destruct c
             end; try discriminate.
    all: injection Hok as <- <-.
    all: eexists _, _, _; (split; [reflexivity |]); cbn;
      (split; [reflexivity |]); auto 10.
  - repeat match goal with
           | |- context [ if ?c then _ else _ ] => destruct c
           end; cbn; auto.
Qed.

Lemma C10_step_frame_witness :
  let B := Example.B in
  let w := Example.w0 B Example.store0 in
  let step := _step B Example.tenth_c Example.u_hist Example.p_prev [] None
                Example.one_c Example.one_c "crank-nicolson" Example.f_hist
                true true (decimal 1 10) in
  (fn_loc Example.u_prev ∈ dom (store B w))
  ∧ value B (store B (step w).2) Example.u_prev = Poly.X
  ∧ outcome B step w = Ok (Example.u_new, Example.p_new)
  ∧ ∃ ev rest ui,
      solves B (calls B step w) = ev :: rest
      ∧ unknown_of B ev = Some ui
      ∧ (5%nat ∉ dom (store B w)) ∧ (4%nat ∉ dom (store B w))
      ∧ 5%nat ≠ 4%nat ∧ fn_loc ui ≠ 5%nat ∧ fn_loc ui ≠ 4%nat.
Proof.
  intros B w step.
  assert (Hin : fn_loc Example.u_prev ∈ dom (store B w)).
  { apply elem_of_dom. eexists. reflexivity. }
  assert (Hok : outcome B step w = Ok (Example.u_new, Example.p_new)).
  { vm_compute. reflexivity. }
  destruct (C10_step_frame B Example.tenth_c Example.u_hist Example.p_prev []
              None Example.one_c Example.one_c "crank-nicolson"
              Example.f_hist true true (decimal 1 10) w)
    as (Hval & _ & Hnew & _).
  split; [exact Hin |].
  split; [exact (Hval Example.u_prev Hin) |].
  split; [exact Hok |].
  exact (Hnew _ _ Hok).
Defined.

(** * Further properties of the module *)

Lemma Poly_field_laws (newton_ok linear_ok krylov_ok : bool) :
  FieldLaws (Poly.backend newton_ok linear_ok krylov_ok).
Proof.
  split; cbn.
  - intros [a0 a1 a2] [b0 b1 b2].
    unfold Poly.integral, Poly.add, Qcdiv. cbn. ring.
  - unfold Poly.integral, Poly.zero, Qcdiv. cbn. ring.
  - intros [a0 a1 a2] [b0 b1 b2].
    unfold Poly.deriv, Poly.add. cbn. f_equal; ring.
  - intros c [a0 a1 a2]. unfold Poly.deriv, Poly.scale. cbn. f_equal; ring.
  - unfold Poly.deriv, Poly.zero. cbn. f_equal; ring.
  - intros [a0 a1 a2] [b0 b1 b2] [d0 d1 d2].
    unfold Poly.mul, Poly.add. cbn. f_equal; ring.
  - intros c [a0 a1 a2] [b0 b1 b2].
    unfold Poly.mul, Poly.scale. cbn. f_equal; ring.
  - intros [a0 a1 a2]. unfold Poly.mul, Poly.zero. cbn. f_equal; ring.
Qed.

(** * The weak right-hand side *)

(** X1.  The convection term of [_rhs_weak] is skew: tested with the
    velocity itself it integrates to zero, so that the value of the
    right-hand side then does not depend on the density. *)
Theorem rhs_weak_convection_is_skew (B : Backend) (HL : BackendLaws B)
    (ρ : env B) u v f rho rho' mu p0 :
  eden B ρ (Arg v) = eden B ρ (Coef u) →
  fden B ρ (_rhs_weak u v f rho mu p0) = fden B ρ (_rhs_weak u v f rho' mu p0).
Proof.
  intros Hv. unfold _rhs_weak. cbn [fden]. do 3 f_equal.
  cbn [eden] in *. rewrite !(intdx_scale B HL), !(intdx_sub B HL).
  cbn [eden] in Hv. rewrite Hv. ring.
Qed.

Lemma rhs_weak_convection_is_skew_witness :
  let B := Example.B in
  let ρ := mkEnv B Example.store0 Poly.zero Poly.X in
  BackendLaws B
  ∧ eden B ρ (Arg Example.v) = eden B ρ (Coef Example.u_prev)
  ∧ fden B ρ (_rhs_weak Example.u_prev Example.v (Coef Example.force)
                Example.one_c Example.one_c Example.p_prev)
    = fden B ρ (_rhs_weak Example.u_prev Example.v (Coef Example.force)
                  Example.tenth_c Example.one_c Example.p_prev).
Proof.
  intros B ρ. split; [apply Poly_laws |]. split; [reflexivity |].
  apply (rhs_weak_convection_is_skew B (Poly_laws true true true) ρ
           Example.u_prev Example.v (Coef Example.force) Example.one_c
           Example.tenth_c Example.one_c Example.p_prev eq_refl).
Defined.

(** * The time stepping methods *)

(** X2.  When both forces are there, the three residuals are built and the
    Crank-Nicolson residual is the mean of the forward and the backward
    Euler residual. *)
Theorem crank_nicolson_is_mean_of_euler (B : Backend) u0 ui p0
    (f : gmap Z expr) rho mu dt v f0 f1 :
  f !! 0%Z = Some f0 → f !! 1%Z = Some f1 →
  ∃ F_fe F_be F_cn,
    tentative_velocity_residual "forward euler" u0 ui p0 f rho mu dt v
      = Ok (1, F_fe)
    ∧ tentative_velocity_residual "backward euler" u0 ui p0 f rho mu dt v
      = Ok (1, F_be)
    ∧ tentative_velocity_residual "crank-nicolson" u0 ui p0 f rho mu dt v
      = Ok (1, F_cn)
    ∧ ∀ ρ, fden B ρ F_cn = (fden B ρ F_fe + fden B ρ F_be) / decimal 2 0.
Proof.
  intros Hf0 Hf1.
  destruct (residual_ok B ForwardEuler u0 ui p0 f rho mu dt v f0 f1 Hf0 Hf1)
    as (F_fe & H1 & D1).
  destruct (residual_ok B BackwardEuler u0 ui p0 f rho mu dt v f0 f1 Hf0 Hf1)
    as (F_be & H2 & D2).
  destruct (residual_ok B CrankNicolson u0 ui p0 f rho mu dt v f0 f1 Hf0 Hf1)
    as (F_cn & H3 & D3).
  exists F_fe, F_be, F_cn. repeat (split; [assumption |]).
  intros ρ. rewrite D1, D2, D3. unfold spec_residual, spec_rhs.
  unfold Qcdiv. rewrite <- decimal_half.
  assert (H2' : decimal 5 1 + decimal 5 1 = 1)
    by (apply Qc_is_canon; reflexivity).
  set (a := intdx B _). set (x := fden B ρ _). set (y := fden B ρ _).
  set (h := decimal 5 1) in *. set (k := values0 dt * / values0 rho).
  transitivity ((h + h) * a - k * h * (x + y)); [rewrite H2'; ring | ring].
Qed.

Lemma crank_nicolson_is_mean_of_euler_witness :
  let B := Example.B in
  Example.f_hist !! 0%Z = Some (Coef Example.force)
  ∧ Example.f_hist !! 1%Z = Some (Coef Example.force)
  ∧ ∃ F_fe F_be F_cn,
      tentative_velocity_residual "forward euler" Example.u_prev Example.ui
        Example.p_prev Example.f_hist Example.one_c Example.one_c
        Example.tenth_c Example.v = Ok (1, F_fe)
      ∧ tentative_velocity_residual "backward euler" Example.u_prev
          Example.ui Example.p_prev Example.f_hist Example.one_c
          Example.one_c Example.tenth_c Example.v = Ok (1, F_be)
      ∧ tentative_velocity_residual "crank-nicolson" Example.u_prev
          Example.ui Example.p_prev Example.f_hist Example.one_c
          Example.one_c Example.tenth_c Example.v = Ok (1, F_cn)
      ∧ ∀ ρ, fden B ρ F_cn = (fden B ρ F_fe + fden B ρ F_be) / decimal 2 0.
Proof.
  intros B. split; [reflexivity |]. split; [reflexivity |].
  apply (crank_nicolson_is_mean_of_euler B Example.u_prev Example.ui
           Example.p_prev Example.f_hist Example.one_c Example.one_c
           Example.tenth_c Example.v (Coef Example.force)
           (Coef Example.force) eq_refl eq_refl).
Defined.

(** * What a step reads *)

(** X3.  A step reads the velocity history at index 0 only: two histories
    with the same [u[0]] give the same run, for [_step] and for the three
    schemes. *)
Theorem step_reads_only_u0 (B : Backend) dt (u u' : gmap Z Function) p0
    u_bcs p_bcs rho mu time_step_method (f : gmap Z expr)
    (rotational_form verbose : bool) tol (w : world B) :
  u !! 0%Z = u' !! 0%Z →
  _step B dt u p0 u_bcs p_bcs rho mu time_step_method f rotational_form
    verbose tol w
  = _step B dt u' p0 u_bcs p_bcs rho mu time_step_method f rotational_form
      verbose tol w
  ∧ Chorin_step B mkChorin dt u p0 u_bcs p_bcs rho mu f verbose tol w
    = Chorin_step B mkChorin dt u' p0 u_bcs p_bcs rho mu f verbose tol w
  ∧ IPCS_step B (mkIPCS time_step_method) dt u p0 u_bcs p_bcs rho mu f
      verbose tol w
    = IPCS_step B (mkIPCS time_step_method) dt u' p0 u_bcs p_bcs rho mu f
        verbose tol w
  ∧ Rotational_step B (mkRotational time_step_method) dt u p0 u_bcs p_bcs
      rho mu f verbose tol w
    = Rotational_step B (mkRotational time_step_method) dt u' p0 u_bcs p_bcs
        rho mu f verbose tol w.
Proof.
  intros H.
  unfold Chorin_step, IPCS_step, Rotational_step, _step,
    _compute_tentative_velocity, _compute_velocity_correction, getitem.
  rewrite H. repeat split.
Qed.

Lemma step_reads_only_u0_witness :
  let B := Example.B in
  let w := Example.w0 B Example.store0 in
  Example.u_hist !! 0%Z = ({[0%Z := Example.u_prev]} : gmap Z Function) !! 0%Z
  ∧ _step B Example.tenth_c Example.u_hist Example.p_prev [] None
      Example.one_c Example.one_c "crank-nicolson" Example.f_hist true true
      (decimal 1 10) w
    = _step B Example.tenth_c {[0%Z := Example.u_prev]} Example.p_prev []
        None Example.one_c Example.one_c "crank-nicolson" Example.f_hist true
        true (decimal 1 10) w.
Proof.
  intros B w.
  assert (Hk : Example.u_hist !! 0%Z
               = ({[0%Z := Example.u_prev]} : gmap Z Function) !! 0%Z)
    by reflexivity.
  split; [exact Hk |].
  destruct (step_reads_only_u0 B Example.tenth_c Example.u_hist
              {[0%Z := Example.u_prev]} Example.p_prev [] None Example.one_c
              Example.one_c "crank-nicolson" Example.f_hist true true
              (decimal 1 10) w Hk) as [H _].
  exact H.
Defined.

(** X4.  Which forces a step reads depends on the method: forward Euler
    reads [f[0]] only, backward Euler reads [f[1]] only. *)
Theorem step_reads_force_of_method (B : Backend) dt (u : gmap Z Function) p0
    u_bcs p_bcs rho mu (f f' : gmap Z expr) (rotational_form verbose : bool)
    tol (w : world B) :
  (f !! 0%Z = f' !! 0%Z →
   _step B dt u p0 u_bcs p_bcs rho mu "forward euler" f rotational_form
     verbose tol w
   = _step B dt u p0 u_bcs p_bcs rho mu "forward euler" f' rotational_form
       verbose tol w)
  ∧ (f !! 1%Z = f' !! 1%Z →
     _step B dt u p0 u_bcs p_bcs rho mu "backward euler" f rotational_form
       verbose tol w
     = _step B dt u p0 u_bcs p_bcs rho mu "backward euler" f' rotational_form
         verbose tol w).
Proof.
  split; intros H;
    unfold _step, _compute_tentative_velocity, tentative_velocity_residual,
      getitem; cbn [String.eqb Ascii.eqb Bool.eqb]; rewrite H; reflexivity.
Qed.

Lemma step_reads_force_of_method_witness :
  let B := Example.B in
  let w := Example.w0 B Example.store0 in
  let f' : gmap Z expr := {[0%Z := Coef Example.force]} in
  Example.f_hist !! 0%Z = f' !! 0%Z
  ∧ _step B Example.tenth_c Example.u_hist Example.p_prev [] None
      Example.one_c Example.one_c "forward euler" Example.f_hist false true
      (decimal 1 10) w
    = _step B Example.tenth_c Example.u_hist Example.p_prev [] None
        Example.one_c Example.one_c "forward euler" f' false true
        (decimal 1 10) w.
Proof.
  intros B w f'.
  assert (Hk : Example.f_hist !! 0%Z = f' !! 0%Z) by reflexivity.
  split; [exact Hk |].
  exact (proj1 (step_reads_force_of_method B Example.tenth_c Example.u_hist
                  Example.p_prev [] None Example.one_c Example.one_c
                  Example.f_hist f' false true (decimal 1 10) w) Hk).
Defined.

(** * Edge cases of the pressure step *)

(** X5.  An empty list of pressure boundary conditions is no boundary
    condition: the pressure step, and a whole step, run exactly as with
    [p_bcs=None], on the conjugate-gradient path. *)
Theorem empty_p_bcs_is_neumann (B : Backend) dt (u : gmap Z Function) p0
    u_bcs rho mu time_step_method (f : gmap Z expr) alpha div_ui pfs
    (rotational_form verbose : bool) tol (w : world B) :
  _compute_pressure B (Some p0) alpha rho dt mu div_ui (Some []) pfs
    rotational_form tol verbose w
  = _compute_pressure B (Some p0) alpha rho dt mu div_ui None pfs
      rotational_form tol verbose w
  ∧ _step B dt u p0 u_bcs (Some []) rho mu time_step_method f
      rotational_form verbose tol w
    = _step B dt u p0 u_bcs None rho mu time_step_method f rotational_form
        verbose tol w
  ∧ ∀ ev, ev ∈ calls B (_compute_pressure B (Some p0) alpha rho dt mu div_ui
                          (Some []) pfs rotational_form tol verbose) w →
          ∃ p A x b c, ev = EvKrylovSolve B "cg" "hypre_amg" p A x b c.
Proof.
  split; [reflexivity |]. split; [reflexivity |].
  intros ev Hev. unfold calls in Hev.
  rewrite pressure_neumann_run in Hev by reflexivity.
  cbn [snd trace] in Hev. rewrite drop_app_length in Hev.
  apply list_elem_of_singleton in Hev as ->. eauto 10.
Qed.

(** X6.  Without a previous pressure the pressure step cannot succeed,
    [p_function_space] or not: it raises before any solver is called and
    leaves the PETSc options alone.  With a previous pressure
    [p_function_space] is not looked at. *)
Theorem pressure_needs_p0 (B : Backend) alpha rho dt mu div_ui p_bcs pfs
    (rotational_form verbose : bool) tol (w : world B) :
  let pressure := _compute_pressure B None alpha rho dt mu div_ui p_bcs pfs
                    rotational_form tol verbose in
  (∃ e, outcome B pressure w = Raise e)
  ∧ calls B pressure w = []
  ∧ petsc_options B (pressure w).2 = petsc_options B w
  ∧ _compute_pressure B None alpha rho dt mu div_ui p_bcs None
      rotational_form tol verbose w = (Raise TypeError, w)
  ∧ ∀ p0 pfs',
      _compute_pressure B (Some p0) alpha rho dt mu div_ui p_bcs pfs
        rotational_form tol verbose w
      = _compute_pressure B (Some p0) alpha rho dt mu div_ui p_bcs pfs'
          rotational_form tol verbose w.
Proof.
  intros pressure. unfold pressure, outcome, calls, _compute_pressure.
  destruct pfs as [P|]; run; rewrite drop_all;
    (split; [eauto |]); repeat (split; [reflexivity |]); reflexivity.
Qed.

(** * Errors of a step *)

(** X7.  The schemes accept any method name when they are built; a name
    other than the three is found out in the step, by an assertion, after the
    tentative velocity has been allocated and before anything is solved. *)
Theorem unknown_method_fails_in_step (B : Backend) name dt
    (u : gmap Z Function) p0 u_bcs p_bcs rho mu (f : gmap Z expr)
    (verbose : bool) tol (w : world B) u0 :
  name ≠ "forward euler" → name ≠ "backward euler" →
  name ≠ "crank-nicolson" →
  0 < values0 dt → 0 < values0 mu → u !! 0%Z = Some u0 →
  let σ := <[fresh (dom (store B w)) := zeroE B]> (store B w) in
  let ipcs := IPCS_step B (mkIPCS name) dt u p0 u_bcs p_bcs rho mu f verbose
                tol in
  let rotational := Rotational_step B (mkRotational name) dt u p0 u_bcs p_bcs
                      rho mu f verbose tol in
  (outcome B ipcs w = Raise AssertionError
   ∧ solves B (calls B ipcs w) = [] ∧ store B (ipcs w).2 = σ)
  ∧ (outcome B rotational w = Raise AssertionError
     ∧ solves B (calls B rotational w) = [] ∧ store B (rotational w).2 = σ).
Proof.
  intros H1 H2 H3 Hdt Hmu Hu σ ipcs rotational.
  unfold ipcs, rotational, IPCS_step, Rotational_step, outcome, calls.
  cbn [IPCS_time_step_method Rotational_time_step_method].
  split;
    (erewrite step_residual_error;
       [| assumption | assumption | exact Hu
        | apply residual_unknown_method; assumption ]);
    cbn [fst snd trace store]; rewrite drop_app_length; auto.
Qed.

Lemma unknown_method_fails_in_step_witness :
  let B := Example.B in
  let w := Example.w0 B Example.store0 in
  let σ := <[3%nat := Poly.zero]> Example.store0 in
  let ipcs := IPCS_step B (mkIPCS "bdf2") Example.tenth_c Example.u_hist
                Example.p_prev [] None Example.one_c Example.one_c
                Example.f_hist true (decimal 1 10) in
  let rotational := Rotational_step B (mkRotational "bdf2") Example.tenth_c
                      Example.u_hist Example.p_prev [] None Example.one_c
                      Example.one_c Example.f_hist true (decimal 1 10) in
  ("bdf2" ≠ "forward euler" ∧ "bdf2" ≠ "backward euler"
   ∧ "bdf2" ≠ "crank-nicolson")
  ∧ (0 < values0 Example.tenth_c ∧ 0 < values0 Example.one_c)
  ∧ Example.u_hist !! 0%Z = Some Example.u_prev
  ∧ (outcome B ipcs w = Raise AssertionError
     ∧ solves B (calls B ipcs w) = [] ∧ store B (ipcs w).2 = σ)
  ∧ (outcome B rotational w = Raise AssertionError
     ∧ solves B (calls B rotational w) = []
     ∧ store B (rotational w).2 = σ).
Proof.
  intros B w σ ipcs rotational.
  assert (N1 : "bdf2" ≠ "forward euler") by discriminate.
  assert (N2 : "bdf2" ≠ "backward euler") by discriminate.
  assert (N3 : "bdf2" ≠ "crank-nicolson") by discriminate.
  assert (Hdt : 0 < values0 Example.tenth_c) by reflexivity.
  assert (Hmu : 0 < values0 Example.one_c) by reflexivity.
  assert (Hu : Example.u_hist !! 0%Z = Some Example.u_prev) by reflexivity.
  split; [auto |]. split; [auto |]. split; [exact Hu |].
  exact (unknown_method_fails_in_step B "bdf2" Example.tenth_c Example.u_hist
           Example.p_prev [] None Example.one_c Example.one_c Example.f_hist
           true (decimal 1 10) w Example.u_prev N1 N2 N3 Hdt Hmu Hu).
Defined.

(** X8.  A non-positive time step or viscosity stops a step at once, with
    an assertion error: [_step], [IPCS.step] and [Rotational.step] leave the
    world as it is.  [Chorin.step] has by then allocated its zero pressure,
    and nothing else. *)
Theorem nonpositive_dt_or_mu_is_rejected (B : Backend) dt
    (u : gmap Z Function) p0 u_bcs p_bcs rho mu time_step_method
    (f : gmap Z expr) (rotational_form verbose : bool) tol (w : world B) :
  ¬ 0 < values0 dt ∨ ¬ 0 < values0 mu →
  _step B dt u p0 u_bcs p_bcs rho mu time_step_method f rotational_form
    verbose tol w = (Raise AssertionError, w)
  ∧ IPCS_step B (mkIPCS time_step_method) dt u p0 u_bcs p_bcs rho mu f
      verbose tol w = (Raise AssertionError, w)
  ∧ Rotational_step B (mkRotational time_step_method) dt u p0 u_bcs p_bcs
      rho mu f verbose tol w = (Raise AssertionError, w)
  ∧ Chorin_step B mkChorin dt u p0 u_bcs p_bcs rho mu f verbose tol w
    = (Raise AssertionError,
       set_store B (<[fresh (dom (store B w)) := zeroE B]> (store B w)) w).
Proof.
  intros H.
  assert (Hstep : ∀ p tsm rot (w' : world B),
            _step B dt u p u_bcs p_bcs rho mu tsm f rot verbose tol w'
            = (Raise AssertionError, w')).
  { intros p tsm rot w'.
    destruct (decide (0 < values0 dt)) as [Hdt|Hdt].
    - destruct H as [H|H]; [contradiction |].
      apply step_rejects_mu; assumption.
    - apply step_rejects_dt; assumption. }
  unfold IPCS_step, Rotational_step, Chorin_step.
  repeat (split; [apply Hstep |]).
  run. rewrite Hstep. reflexivity.
Qed.

Lemma nonpositive_dt_or_mu_is_rejected_witness :
  let B := Example.B in
  let w := Example.w0 B Example.store0 in
  (¬ 0 < values0 Example.zero_c ∨ ¬ 0 < values0 Example.one_c)
  ∧ _step B Example.zero_c Example.u_hist Example.p_prev [] None
      Example.one_c Example.one_c "backward euler" Example.f_hist false true
      (decimal 1 10) w = (Raise AssertionError, w)
  ∧ Chorin_step B mkChorin Example.zero_c Example.u_hist Example.p_prev []
      None Example.one_c Example.one_c Example.f_hist true (decimal 1 10) w
    = (Raise AssertionError,
       set_store B (<[3%nat := Poly.zero]> Example.store0) w).
Proof.
  intros B w.
  assert (H : ¬ 0 < values0 Example.zero_c ∨ ¬ 0 < values0 Example.one_c).
  { left. intros H. discriminate H. }
  destruct (nonpositive_dt_or_mu_is_rejected B Example.zero_c Example.u_hist
              Example.p_prev [] None Example.one_c Example.one_c
              "backward euler" Example.f_hist false true (decimal 1 10) w H)
    as (H1 & _ & _ & H4).
  split; [exact H |]. split; [exact H1 | exact H4].
Defined.

(** X9.  A missing history entry is a [KeyError]: without [u[0]] nothing
    has been done when it is raised; without the force the method reads the
    tentative velocity has been allocated and nothing is solved. *)
Theorem missing_history_is_an_error (B : Backend) dt (u : gmap Z Function)
    p0 u_bcs p_bcs rho mu (f : gmap Z expr) (rotational_form verbose : bool)
    tol (w : world B) :
  0 < values0 dt → 0 < values0 mu →
  (u !! 0%Z = None →
   ∀ name,
     _step B dt u p0 u_bcs p_bcs rho mu name f rotational_form verbose tol w
     = (Raise KeyError, w))
  ∧ (is_Some (u !! 0%Z) →
     ∀ m,
       force_missing m f →
       let step := _step B dt u p0 u_bcs p_bcs rho mu (method_name m) f
                     rotational_form verbose tol in
       outcome B step w = Raise KeyError
       ∧ solves B (calls B step w) = []
       ∧ store B (step w).2
         = <[fresh (dom (store B w)) := zeroE B]> (store B w)).
Proof.
  intros Hdt Hmu. split.
  - intros Hu name. apply step_missing_u0; assumption.
  - intros [u0 Hu] m Hm step. unfold step, outcome, calls.
    erewrite step_residual_error; [| assumption | assumption | exact Hu |].
    + cbn [fst snd trace store]. rewrite drop_app_length. auto.
    + unfold tentative_velocity_residual, getitem.
      destruct m; cbn in Hm |- *;
        [ rewrite Hm | rewrite Hm | destruct Hm as [Hm|Hm]; rewrite Hm ];
        cbn; try reflexivity.
      destruct (f !! 0%Z); reflexivity.
Qed.

Lemma missing_history_is_an_error_witness :
  let B := Example.B in
  let w := Example.w0 B Example.store0 in
  let f' : gmap Z expr := {[0%Z := Coef Example.force]} in
  let step := _step B Example.tenth_c Example.u_hist Example.p_prev [] None
                Example.one_c Example.one_c (method_name BackwardEuler) f'
                true true (decimal 1 10) in
  (0 < values0 Example.tenth_c ∧ 0 < values0 Example.one_c)
  ∧ is_Some (Example.u_hist !! 0%Z)
  ∧ force_missing BackwardEuler f'
  ∧ outcome B step w = Raise KeyError
  ∧ solves B (calls B step w) = []
  ∧ store B (step w).2 = <[3%nat := Poly.zero]> Example.store0.
Proof.
  intros B w f' step.
  assert (Hdt : 0 < values0 Example.tenth_c) by reflexivity.
  assert (Hmu : 0 < values0 Example.one_c) by reflexivity.
  assert (Hu : is_Some (Example.u_hist !! 0%Z)) by (eexists; reflexivity).
  assert (Hm : force_missing BackwardEuler f') by reflexivity.
  split; [auto |]. split; [exact Hu |]. split; [exact Hm |].
  exact (proj2 (missing_history_is_an_error B Example.tenth_c Example.u_hist
                  Example.p_prev [] None Example.one_c Example.one_c f' true
                  true (decimal 1 10) w Hdt Hmu) Hu BackwardEuler Hm).
Defined.



(** * What a step returns *)

(** The objects a step returns: they are new, different, allocated in the
    store the step leaves, and of the spaces of [u[0]] and [p0]. *)
Lemma step_ok_objects (B : Backend) dt (u : gmap Z Function) p0 u_bcs p_bcs
    rho mu time_step_method (f : gmap Z expr) (rotational_form verbose : bool)
    tol (w : world B) u1 p1 :
  let step := _step B dt u p0 u_bcs p_bcs rho mu time_step_method f
                rotational_form verbose tol in
  outcome B step w = Ok (u1, p1) →
  (∃ u0, u !! 0%Z = Some u0 ∧ function_space u1 = function_space u0)
  ∧ function_space p1 = function_space p0
  ∧ (fn_loc u1 ∈ dom (store B (step w).2))
  ∧ (fn_loc p1 ∈ dom (store B (step w).2))
  ∧ (fn_loc u1 ∉ dom (store B w)) ∧ (fn_loc p1 ∉ dom (store B w))
  ∧ fn_loc u1 ≠ fn_loc p1.
Proof.
  intros step. subst step. unfold outcome. intros Hok.
  destruct (decide (0 < values0 dt)) as [Hdt|Hdt];
    [| rewrite step_rejects_dt in Hok by exact Hdt; discriminate].
  destruct (decide (0 < values0 mu)) as [Hmu|Hmu];
    [| rewrite step_rejects_mu in Hok by assumption; discriminate].
  destruct (u !! 0%Z) as [u0|] eqn:Hu;
    [| rewrite step_missing_u0 in Hok by assumption; discriminate].
  destruct (tentative_velocity_residual time_step_method u0
              (mkFunction (fresh (dom (store B w))) (function_space u0)) p0 f
              rho mu dt (TestFunction (function_space u0)))
    as [[alpha F1]|e] eqn:HF;
    [| erewrite step_residual_error in Hok by eassumption; discriminate].
  pose proof (step_locations B dt p0 u_bcs p_bcs rho mu rotational_form
                verbose tol w u0 alpha F1)
    as (Hl1 & Hl2 & Hl3 & H12 & H13 & H23).
  rewrite (step_run B dt u p0 u_bcs p_bcs rho mu time_step_method f
             rotational_form verbose tol w u0 alpha F1 Hdt Hmu Hu HF) in *.
  cbv zeta in *.
  repeat match type of Hok with
         | context [ if ?c then _ else _ ] => destruct c
         end; try discriminate.
  all: cbn [fst snd store] in *; injection Hok as <- <-; cbn [fn_loc function_space].
  all: split; [eexists; split; reflexivity |].
  all: split; [reflexivity |].
  all: repeat split; try assumption; try congruence.
  all: apply elem_of_dom;
    repeat (rewrite lookup_insert_ne by congruence);
    rewrite lookup_insert_eq; eauto.
Qed.

(** X11.  What a step returns can be the history of the next one: the new
    velocity and pressure are of the spaces of [u[0]] and [p0], and whatever
    step is run next, on whatever arguments, it leaves their values alone and
    returns objects different from them. *)
Theorem step_outputs_survive_next_step (B : Backend)
    dt (u : gmap Z Function) p0 u_bcs p_bcs rho mu time_step_method
    (f : gmap Z expr) (rotational_form verbose : bool) tol (w : world B)
    u1 p1 :
  let step := _step B dt u p0 u_bcs p_bcs rho mu time_step_method f
                rotational_form verbose tol in
  outcome B step w = Ok (u1, p1) →
  (∃ u0, u !! 0%Z = Some u0 ∧ function_space u1 = function_space u0)
  ∧ function_space p1 = function_space p0
  ∧ ∀ dt' (u' : gmap Z Function) p0' u_bcs' p_bcs' rho' mu'
      time_step_method' (f' : gmap Z expr) (rotational_form' verbose' : bool)
      tol',
      let w1 := (step w).2 in
      let next := _step B dt' u' p0' u_bcs' p_bcs' rho' mu' time_step_method'
                    f' rotational_form' verbose' tol' in
      value B (store B (next w1).2) u1 = value B (store B w1) u1
      ∧ value B (store B (next w1).2) p1 = value B (store B w1) p1
      ∧ ∀ u2 p2,
          outcome B next w1 = Ok (u2, p2) →
          fn_loc u2 ≠ fn_loc u1 ∧ fn_loc u2 ≠ fn_loc p1
          ∧ fn_loc p2 ≠ fn_loc u1 ∧ fn_loc p2 ≠ fn_loc p1.
Proof.
  intros step Hok.
  destruct (step_ok_objects B dt u p0 u_bcs p_bcs rho mu time_step_method f
              rotational_form verbose tol w u1 p1 Hok)
    as (Hsu & Hsp & Hu1 & Hp1 & _).
  fold step in Hu1, Hp1.
  split; [exact Hsu |]. split; [exact Hsp |].
  intros dt' u' p0' u_bcs' p_bcs' rho' mu' tsm' f' rot' verbose' tol' w1 next.
  pose proof (step_frame B dt' u' p0' u_bcs' p_bcs' rho' mu' tsm' f' rot'
                verbose' tol' w1) as Hframe.
  fold next in Hframe.
  assert (Hval : ∀ g : Function,
            fn_loc g ∈ dom (store B w1) →
            value B (store B (next w1).2) g = value B (store B w1) g).
  { intros g Hg. apply elem_of_dom in Hg as [x Hx]. unfold value.
    rewrite Hx, (lookup_weaken _ _ _ _ Hx Hframe). reflexivity. }
  split; [apply Hval, Hu1 |]. split; [apply Hval, Hp1 |].
  intros u2 p2 Hok2.
  destruct (step_ok_objects B dt' u' p0' u_bcs' p_bcs' rho' mu' tsm' f' rot'
              verbose' tol' w1 u2 p2 Hok2)
    as (_ & _ & _ & _ & Hu2 & Hp2 & _).
  repeat split; intros E; rewrite E in *; contradiction.
Qed.

Lemma step_outputs_survive_next_step_witness :
  let B := Example.B in
  let w := Example.w0 B Example.store0 in
  let step := _step B Example.tenth_c Example.u_hist Example.p_prev [] None
                Example.one_c Example.one_c "backward euler" Example.f_hist
                false true (decimal 1 10) in
  let w1 := (step w).2 in
  let next := _step B Example.tenth_c {[0%Z := Example.u_new]} Example.p_new
                [] None Example.one_c Example.one_c "backward euler"
                Example.f_hist false true (decimal 1 10) in
  outcome B step w = Ok (Example.u_new, Example.p_new)
  ∧ function_space Example.p_new = function_space Example.p_prev
  ∧ value B (store B (next w1).2) Example.u_new
    = value B (store B w1) Example.u_new
  ∧ value B (store B (next w1).2) Example.p_new
    = value B (store B w1) Example.p_new.
Proof.
  intros B w step w1 next.
  assert (Hok : outcome B step w = Ok (Example.u_new, Example.p_new))
    by (vm_compute; reflexivity).
  destruct (step_outputs_survive_next_step B Example.tenth_c Example.u_hist
              Example.p_prev [] None Example.one_c Example.one_c
              "backward euler" Example.f_hist false true (decimal 1 10) w
              Example.u_new Example.p_new Hok)
    as (_ & Hsp & Hnext).
  destruct (Hnext Example.tenth_c {[0%Z := Example.u_new]} Example.p_new []
              None Example.one_c Example.one_c "backward euler"
              Example.f_hist false true (decimal 1 10))
    as (Hu & Hp & _).
  split; [exact Hok |]. split; [exact Hsp |]. split; [exact Hu | exact Hp].
Defined.

(** * Pressure and correction fit together *)

(** X12.  The velocity correction uses the [φ] the pressure step solved
    for.  If [p] satisfies the pressure equation of the step against a test
    function [q], then with [p] as the new pressure the [φ] of the
    correction satisfies [∫∇φ·∇q = −α ρ/dt ∫div(u_star) q], with and without
    rotational form. *)
Theorem correction_uses_the_phi_of_the_pressure_step (B : Backend)
    (HL : BackendLaws B) (HF : FieldLaws B) (σ : gmap nat (E B)) P ui p0 p1
    alpha rho dt mu (rotational_form : bool) (p q : E B) :
  fn_loc p1 ≠ fn_loc p0 → fn_loc p1 ≠ fn_loc ui →
  fden B (mkEnv B σ p q) (pressure_a2 P)
  = fden B (mkEnv B σ p q)
      (pressure_L2 P p0 alpha rho dt mu (Div (Coef ui)) rotational_form) →
  let phi := eden B (mkEnv B (<[fn_loc p1 := p]> σ) p q)
               (velocity_correction_phi ui p1 p0 mu rotational_form) in
  intdx B (dotE B (gradE B phi) (gradE B q))
  = - (alpha * (values0 rho / values0 dt))
    * intdx B (mulE B (divE B (value B σ ui)) q).
Proof.
  intros H0 Hi Hp phi.
  rewrite pressure_a2_den, (pressure_L2_den B HL) in Hp.
  unfold spec_pressure_bilinear, spec_pressure_linear in Hp.
  cbn [e_trial e_test e_store eden] in Hp.
  unfold phi, velocity_correction_phi.
  assert (V1 : value B (<[fn_loc p1 := p]> σ) p1 = p).
  { unfold value. rewrite lookup_insert_eq. reflexivity. }
  assert (V0 : value B (<[fn_loc p1 := p]> σ) p0 = value B σ p0).
  { unfold value. rewrite lookup_insert_ne by exact H0. reflexivity. }
  assert (Vi : value B (<[fn_loc p1 := p]> σ) ui = value B σ ui).
  { unfold value. rewrite lookup_insert_ne by exact Hi. reflexivity. }
  destruct rotational_form; cbn [eden e_store sden]; rewrite ?V1, ?V0, ?Vi.
  - rewrite (grad_add B HF), (grad_sub B HL), (grad_scale B HF).
    rewrite (dot_add_l B HF), (dot_sub_l B HL), (dot_scale_l B HF).
    rewrite (intdx_add B HF), (intdx_sub B HL), (intdx_scale B HL), Hp.
    ring.
  - rewrite (grad_sub B HL), (dot_sub_l B HL), (intdx_sub B HL), Hp. ring.
Qed.

Lemma correction_uses_the_phi_of_the_pressure_step_witness :
  let B := Exact.backend in
  let σ := Exact.store1 in
  let p1 := mkFunction 5 Example.Q in
  let p := Poly.mkPoly 0 (Q2Qc (-83 # 3)) (decimal 20 0) in
  let q := Poly.X in
  let phi := eden B (mkEnv B (<[fn_loc p1 := p]> σ) p q)
               (velocity_correction_phi Exact.u_star p1 Example.p_prev
                  Example.one_c true) in
  (BackendLaws B ∧ FieldLaws B)
  ∧ (fn_loc p1 ≠ fn_loc Example.p_prev ∧ fn_loc p1 ≠ fn_loc Exact.u_star)
  ∧ fden B (mkEnv B σ p q) (pressure_a2 Example.Q)
    = fden B (mkEnv B σ p q)
        (pressure_L2 Example.Q Example.p_prev 1 Example.one_c Example.tenth_c
           Example.one_c (Div (Coef Exact.u_star)) true)
  ∧ gradE B phi ≠ Poly.zero
  ∧ - (1 * (values0 Example.one_c / values0 Example.tenth_c))
      * intdx B (mulE B (divE B (value B σ Exact.u_star)) q) ≠ 0
  ∧ intdx B (dotE B (gradE B phi) (gradE B q))
    = - (1 * (values0 Example.one_c / values0 Example.tenth_c))
      * intdx B (mulE B (divE B (value B σ Exact.u_star)) q).
Proof.
  intros B σ p1 p q phi.
  assert (N0 : fn_loc p1 ≠ fn_loc Example.p_prev) by discriminate.
  assert (Ni : fn_loc p1 ≠ fn_loc Exact.u_star) by discriminate.
  assert (Hp : fden B (mkEnv B σ p q) (pressure_a2 Example.Q)
               = fden B (mkEnv B σ p q)
                   (pressure_L2 Example.Q Example.p_prev 1 Example.one_c
                      Example.tenth_c Example.one_c
                      (Div (Coef Exact.u_star)) true)).
  { apply Qc_is_canon. vm_compute. reflexivity. }
  split; [split; [exact Exact_laws | exact Exact_field_laws] |].
  split; [auto |]. split; [exact Hp |].
  split; [vm_compute; discriminate |].
  split; [vm_compute; discriminate |].
  exact (correction_uses_the_phi_of_the_pressure_step B Exact_laws
           Exact_field_laws σ Example.Q Exact.u_star Example.p_prev p1 1
           Example.one_c Example.tenth_c Example.one_c true p q N0 Ni Hp).
Defined.

Lemma lookup_fresh_insert {A} (σ : gmap nat A) x l :
  l ∈ dom σ → <[fresh (dom σ) := x]> σ !! l = σ !! l.
Proof.
  intros Hl. apply lookup_insert_ne. intros E. rewrite <- E in Hl.
  exact (is_fresh _ Hl).
Qed.

(** A pressure whose coefficients are zero contributes nothing to the
    right-hand side of the pressure step. *)
Lemma pressure_L2_zero_p0 (B : Backend) (HL : BackendLaws B)
    (HF : FieldLaws B) (ρ : env B) P p0 alpha rho dt mu div_ui
    (rotational_form : bool) :
  value B (e_store B ρ) p0 = zeroE B →
  fden B ρ (pressure_L2 P p0 alpha rho dt mu div_ui rotational_form)
  = spec_pressure_source B alpha (values0 rho) (values0 dt) (values0 mu)
      (eden B ρ div_ui) (e_test B ρ) rotational_form.
Proof.
  intros Hz. rewrite (pressure_L2_den B HL), Hz.
  unfold spec_pressure_linear, spec_pressure_source.
  rewrite (grad_zero B HF), (dot_zero_l B HF), (intdx_zero B HF). ring.
Qed.

(** X13.  Chorin's scheme is not incremental: in [Chorin.step] the
    right-hand side of the pressure system, which is solved as soon as the
    Newton solve has converged, is [−ρ/dt ∫div(u_star) q] alone, [u_star]
    being the tentative velocity the first solve left; the pressure given to
    the step does not enter. *)
Theorem chorin_pressure_is_not_incremental (B : Backend) (HL : BackendLaws B)
    (HF : FieldLaws B) dt (u : gmap Z Function) p0 u_bcs p_bcs rho mu
    (f : gmap Z expr) (verbose : bool) tol (w : world B) u0 f1 :
  0 < values0 dt → 0 < values0 mu → u !! 0%Z = Some u0 →
  f !! 1%Z = Some f1 →
  let chorin := Chorin_step B mkChorin dt u p0 u_bcs p_bcs rho mu f verbose
                  tol in
  let evs := solves B (calls B chorin w) in
  ∃ ui,
    head evs ≫= unknown_of B = Some ui
    ∧ (head evs ≫= converged_of B = Some true →
       is_Some (evs !! 1%nat ≫= system_of B))
    ∧ ∀ A b,
        evs !! 1%nat ≫= system_of B = Some (A, b) →
        ∀ q, b q = - (values0 rho / values0 dt)
                   * intdx B (mulE B (divE B (value B (store B (chorin w).2)
                                                ui)) q).
Proof.
  intros Hdt Hmu Hu Hf1 chorin evs. subst evs.
  set (l0 := fresh (dom (store B w))).
  set (w' := set_store B (<[l0 := zeroE B]> (store B w)) w).
  set (pz := mkFunction l0 (function_space p0)).
  assert (Hch : chorin w
                = _step B dt u pz u_bcs p_bcs rho mu "backward euler" f false
                    verbose tol w') by reflexivity.
  assert (Hcalls : calls B chorin w
                   = calls B (_step B dt u pz u_bcs p_bcs rho mu
                                "backward euler" f false verbose tol) w').
  { unfold calls. rewrite Hch. reflexivity. }
  rewrite Hcalls, Hch. clear Hcalls Hch.
  assert (HR : ∃ F1,
            tentative_velocity_residual "backward euler" u0
              (mkFunction (fresh (dom (store B w'))) (function_space u0)) pz
              f rho mu dt (TestFunction (function_space u0)) = Ok (1, F1)).
  { unfold tentative_velocity_residual, getitem. cbn. rewrite Hf1. cbn.
    eexists. reflexivity. }
  destruct HR as [F1 HR].
  rewrite (step_solves B dt u pz u_bcs p_bcs rho mu "backward euler" f false
             verbose tol w' u0 1 F1 Hdt Hmu Hu HR).
  rewrite (step_store B dt u pz u_bcs p_bcs rho mu "backward euler" f false
             verbose tol w' u0 1 F1 Hdt Hmu Hu HR).
  cbv zeta.
  set (l1 := fresh (dom (store B w'))).
  set (ui := mkFunction l1 (function_space u0)).
  exists ui.
  match goal with
  | |- context [ (newton ?b ?s ?F ?x ?bc ?J ?p) ] =>
      destruct (newton b s F x bc J p) as [x1 c1]
  end.
  cbn [fst snd].
  set (σ2 := <[fresh (dom (<[l1 := x1]> _)) := zeroE B]> (<[l1 := x1]> _)).
  assert (Hz : value B σ2 pz = zeroE B).
  { unfold value, pz, σ2. cbn [fn_loc].
    rewrite lookup_fresh_insert
      by (clear; unfold w'; cbn [store set_store];
          rewrite ?dom_insert_L; set_solver).
    rewrite !lookup_insert_ne
      by (clear; unfold l1, w'; cbn [store set_store]; intros E;
          apply (is_fresh (dom (<[l0 := zeroE B]> (store B w))));
          rewrite E, dom_insert_L; set_solver).
    unfold w'. cbn [store set_store]. rewrite lookup_insert_eq. reflexivity. }
  assert (Hb : ∀ q,
            assemble_vector B σ2
              (pressure_L2 (function_space pz) pz 1 rho dt mu
                 (Div (Coef ui)) false) q
            = - (values0 rho / values0 dt)
              * intdx B (mulE B (divE B (value B σ2 ui)) q)).
  { intros q. unfold assemble_vector.
    rewrite (pressure_L2_zero_p0 B HL HF) by exact Hz.
    unfold spec_pressure_source. cbn. ring. }
  destruct c1.
  2:{ split; [reflexivity |]. split; [discriminate |].
      intros A b H. discriminate H. }
  repeat match goal with
         | |- context [ if ?c then _ else _ ] => destruct c
         end.
  all: split; [reflexivity |].
  all: split; [intros _; eexists; reflexivity |].
  all: intros A b H; cbn in H; injection H as _ <-; intros q.
  all: rewrite Hb; do 3 f_equal.
  all: unfold value, σ2, ui; cbn [fn_loc]; rewrite ?insert_insert_eq;
    repeat (rewrite lookup_fresh_insert
              by (clear; rewrite ?dom_insert_L; set_solver));
    reflexivity.
Qed.

Lemma chorin_pressure_is_not_incremental_witness :
  let B := Example.B in
  let w := Example.w0 B Example.store0 in
  let chorin := Chorin_step B mkChorin Example.tenth_c Example.u_hist
                  Example.p_prev [] None Example.one_c Example.one_c
                  Example.f_hist true (decimal 1 10) in
  let evs := solves B (calls B chorin w) in
  (BackendLaws B ∧ FieldLaws B)
  ∧ (0 < values0 Example.tenth_c ∧ 0 < values0 Example.one_c)
  ∧ Example.u_hist !! 0%Z = Some Example.u_prev
  ∧ Example.f_hist !! 1%Z = Some (Coef Example.force)
  ∧ ∃ ui A b,
      head evs ≫= unknown_of B = Some ui
      ∧ evs !! 1%nat ≫= system_of B = Some (A, b)
      ∧ ∀ q, b q = - (values0 Example.one_c / values0 Example.tenth_c)
                   * intdx B (mulE B (divE B (value B (store B (chorin w).2)
                                                ui)) q).
Proof.
  intros B w chorin evs.
  assert (Hdt : 0 < values0 Example.tenth_c) by reflexivity.
  assert (Hmu : 0 < values0 Example.one_c) by reflexivity.
  assert (Hu : Example.u_hist !! 0%Z = Some Example.u_prev) by reflexivity.
  assert (Hf : Example.f_hist !! 1%Z = Some (Coef Example.force))
    by reflexivity.
  assert (Hc : head evs ≫= converged_of B = Some true)
    by (vm_compute; reflexivity).
  destruct (chorin_pressure_is_not_incremental B (Poly_laws true true true)
              (Poly_field_laws true true true) Example.tenth_c Example.u_hist
              Example.p_prev [] None Example.one_c Example.one_c
              Example.f_hist true (decimal 1 10) w Example.u_prev
              (Coef Example.force) Hdt Hmu Hu Hf)
    as (ui & Hui & Hsome & Hb).
  destruct (Hsome Hc) as [[A b] HAb].
  split; [split; [apply Poly_laws | apply Poly_field_laws] |].
  split; [auto |]. split; [exact Hu |]. split; [exact Hf |].
  exists ui, A, b. split; [exact Hui |]. split; [exact HAb |].
  exact (Hb A b HAb).
Defined.

(** * The tentative stage and the later parameters *)

(** X14.  The tentative-velocity stage of a step does not depend on what
    only the later stages use: the first solver call of a step, with all its
    arguments and with what the solver reported, is the same whatever
    [p_bcs], [rotational_form], [verbose] and [tol] are. *)
Theorem tentative_stage_ignores_later_parameters (B : Backend) dt
    (u : gmap Z Function) p0 u_bcs rho mu time_step_method (f : gmap Z expr)
    (w : world B) p_bcs p_bcs' (rotational_form rotational_form' : bool)
    (verbose verbose' : bool) tol tol' :
  head (solves B (calls B (_step B dt u p0 u_bcs p_bcs rho mu
                             time_step_method f rotational_form verbose tol)
                    w))
  = head (solves B (calls B (_step B dt u p0 u_bcs p_bcs' rho mu
                               time_step_method f rotational_form' verbose'
                               tol') w)).
Proof.
  destruct (decide (0 < values0 dt)) as [Hdt|Hdt];
    [| unfold calls; rewrite !step_rejects_dt by exact Hdt; reflexivity].
  destruct (decide (0 < values0 mu)) as [Hmu|Hmu];
    [| unfold calls; rewrite !step_rejects_mu by assumption; reflexivity].
  destruct (u !! 0%Z) as [u0|] eqn:Hu;
    [| unfold calls; rewrite !step_missing_u0 by assumption; reflexivity].
  destruct (tentative_velocity_residual time_step_method u0
              (mkFunction (fresh (dom (store B w))) (function_space u0)) p0 f
              rho mu dt (TestFunction (function_space u0)))
    as [[alpha F1]|e] eqn:HF.
  2:{ unfold calls.
      rewrite !(step_residual_error B dt u p0 u_bcs _ rho mu time_step_method
                 f _ _ _ w u0 e Hdt Hmu Hu HF).
      reflexivity. }
  rewrite !(step_solves B dt u p0 u_bcs _ rho mu time_step_method f _ _ _ w
              u0 alpha F1 Hdt Hmu Hu HF).
  cbv zeta.
  match goal with
  | |- context [ (newton ?b ?s ?F ?x ?bc ?J ?p) ] =>
      destruct (newton b s F x bc J p) as [x1 c1]
  end.
  cbn [fst snd]. destruct c1; [| reflexivity].
  repeat match goal with
         | |- context [ if ?c then [_; _; _] else _ ] => destruct c
         end; reflexivity.
Qed.

(** * Properties of the Stokes solver *)

Lemma Poly_stokes_laws (newton_ok linear_ok krylov_ok : bool) :
  Stokes.Laws (Poly.backend newton_ok linear_ok krylov_ok).
Proof.
  split; cbn.
  - intros [a0 a1 a2] [b0 b1 b2].
    unfold Poly.integral, Poly.mul, Qcdiv. cbn. ring.
  - intros [a0 a1 a2] [b0 b1 b2].
    unfold Poly.integral, Poly.mul, Qcdiv. cbn. ring.
  - unfold Poly.deriv, Poly.zero. cbn. f_equal; ring.
  - intros [a0 a1 a2]. unfold Poly.mul, Poly.zero. cbn. f_equal; ring.
  - intros [a0 a1 a2]. unfold Poly.mul, Poly.zero. cbn. f_equal; ring.
  - intros [a0 a1 a2]. unfold Poly.mul, Poly.zero. cbn. f_equal; ring.
Qed.

Section StokesRun.

Variable B : Backend.
Variable K : Stokes.Solver B.

Variables (WP : Stokes.MixedFunctionSpace) (bcs : list DirichletBC)
  (mu : Qc) (f : expr) (verbose : bool) (tol : Qc) (w : Stokes.state B).

(** The objects of a run: the new function, the assembled operators and
    right-hand side, and the parameters of the solver. *)
Let σ := Stokes.s_store B w.
Let l0 := fresh (dom σ).
Let l1 := fresh (dom (<[l0 := zeroE B]> σ)).
Let up := Stokes.mkMixedFunction l0 l1 WP.
Let u := TrialFunction (Stokes.sub0 WP).
Let p := TrialFunction (Stokes.sub1 WP).
Let v := TestFunction (Stokes.sub0 WP).
Let q := TestFunction (Stokes.sub1 WP).
Let a :=
  FSub (FSub (Dx (Scale (SNum mu) (Inner (Grad (Arg u)) (Grad (Arg v)))))
             (Dx (Mul (Arg p) (Div (Arg v)))))
       (Dx (Mul (Arg q) (Div (Arg u)))).
Let prec :=
  FSub (Dx (Scale (SNum mu) (Inner (Grad (Arg u)) (Grad (Arg v)))))
       (Dx (Mul (Arg p) (Arg q))).
Let L := Dx (Dot f (Arg v)).
Let A := (Stokes.assemble_system B WP σ a L bcs).1.
Let b := (Stokes.assemble_system B WP σ a L bcs).2.
Let P := (Stokes.assemble_system B WP σ prec L bcs).1.
Let prm :=
  mkKrylovParameters tol 0 500 verbose
    (error_on_nonconvergence (krylov_default_parameters B)).
Let sol :=
  Stokes.krylov_solve B K "gmres" "amg" prm verbose A P (zeroE B, zeroE B) b.
Let c := Stokes.mkCall B "gmres" "amg" prm verbose A P (zeroE B, zeroE B) b
           sol.2.

Lemma stokes_fresh_blocks : (l0 ∉ dom σ) ∧ (l1 ∉ dom σ) ∧ l0 ≠ l1.
Proof.
  assert (H0 : l0 ∉ dom σ) by apply is_fresh.
  assert (H1 : l1 ∉ dom (<[l0 := zeroE B]> σ)) by apply is_fresh.
  rewrite dom_insert_L in H1.
  split; [exact H0 |]. split; set_solver.
Qed.

Lemma stokes_run :
  0 < mu →
  Stokes.solve B K WP bcs mu f verbose tol w
  = (if sol.2 || negb (error_on_nonconvergence (krylov_default_parameters B))
     then Ok (Stokes.split up) else Raise RuntimeError,
     Stokes.mkState B
       (<[l1 := sol.1.2]>
          (<[l0 := sol.1.1]>
             (<[l1 := zeroE B]> (<[l0 := zeroE B]> σ))))
       (Stokes.s_calls B w ++ [c])).
Proof.
  intros Hmu.
  destruct stokes_fresh_blocks as (_ & _ & Hne).
  unfold Stokes.solve, Stokes.lift, mbind, Stokes.SM_bind.
  rewrite (bool_decide_eq_true_2 _ Hmu).
  repeat (progress (unfold mbind, mret, Stokes.SM_bind, Stokes.SM_ret,
                      Stokes.get_store, Stokes.log, Stokes.raise,
                      Stokes.write_vector, Stokes.new_MixedFunction,
                      Stokes.KrylovSolver_solve, Stokes.vector; cbn)).
  fold σ. fold l0. fold l1.
  rewrite (lookup_insert_ne _ l1 l0) by (intros ?; apply Hne; congruence).
  rewrite !lookup_insert_eq. cbn.
  change (Stokes.krylov_solve B K "gmres" "amg" _ verbose _ _
            (zeroE B, zeroE B) _) with sol.
  unfold c. generalize sol. intros [y conv]. cbn.
  destruct (conv || negb (error_on_nonconvergence (krylov_default_parameters B)));
    reflexivity.
Qed.

Lemma stokes_calls :
  0 < mu → Stokes.calls B (Stokes.solve B K WP bcs mu f verbose tol) w = [c].
Proof.
  intros Hmu. unfold Stokes.calls. rewrite (stokes_run Hmu). cbn.
  rewrite drop_app_length. reflexivity.
Qed.

Lemma stokes_outcome :
  0 < mu →
  (Stokes.solve B K WP bcs mu f verbose tol w).1
  = if sol.2 || negb (error_on_nonconvergence (krylov_default_parameters B))
    then Ok (Stokes.split up) else Raise RuntimeError.
Proof. intros Hmu. rewrite (stokes_run Hmu). reflexivity. Qed.

Lemma stokes_store :
  0 < mu →
  Stokes.s_store B (Stokes.solve B K WP bcs mu f verbose tol w).2
  = <[l1 := sol.1.2]>
      (<[l0 := sol.1.1]> (<[l1 := zeroE B]> (<[l0 := zeroE B]> σ))).
Proof. intros Hmu. rewrite (stokes_run Hmu). reflexivity. Qed.

End StokesRun.

(** X15.  [solve] asserts that the viscosity is positive before it does
    anything else: with [mu <= 0] the call ends in an [AssertionError], no
    function is allocated and the solver is not called. *)
Theorem stokes_rejects_nonpositive_mu (B : Backend) (K : Stokes.Solver B)
    (WP : Stokes.MixedFunctionSpace) (bcs : list DirichletBC) (mu : Qc)
    (f : expr) (verbose : bool) (tol : Qc) (w : Stokes.state B) :
  mu <= 0 →
  Stokes.solve B K WP bcs mu f verbose tol w = (Raise AssertionError, w).
Proof.
  intros H. unfold Stokes.solve, Stokes.lift, mbind, Stokes.SM_bind.
  rewrite bool_decide_eq_false_2 by (apply Qcle_not_lt; exact H).
  reflexivity.
Qed.

Lemma stokes_rejects_nonpositive_mu_witness :
  (0 : Qc) <= 0 ∧
  Stokes.solve Example.B (Stokes.poly_solver true) Stokes.WP [Example.bc0] 0
    (Coef Example.force) true (decimal 1 13)
    (Stokes.s0 Example.B Example.store0)
  = (Raise AssertionError, Stokes.s0 Example.B Example.store0).
Proof.
  split; [apply Qcle_refl |].
  apply (stokes_rejects_nonpositive_mu Example.B (Stokes.poly_solver true)).
  apply Qcle_refl.
Defined.

(** X16.  The system [solve] hands to the Krylov solver is symmetric: the
    solver is called once, and both the operator assembled from [a] and the
    preconditioner assembled from [prec] are unchanged when trial and test
    function are exchanged. *)
Theorem stokes_operators_are_symmetric (B : Backend) (K : Stokes.Solver B)
    (WP : Stokes.MixedFunctionSpace) (bcs : list DirichletBC) (mu : Qc)
    (f : expr) (verbose : bool) (tol : Qc) (w : Stokes.state B) :
  BackendLaws (B) → Stokes.Laws (B) →
  0 < mu →
  ∃ c, Stokes.calls B (Stokes.solve B K WP bcs mu f verbose tol) w = [c]
       ∧ Stokes.symmetric_matrix B (Stokes.c_A B c)
       ∧ Stokes.symmetric_matrix B (Stokes.c_P B c).
Proof.
  intros HB HS Hmu. eexists. split; [apply stokes_calls; exact Hmu |].
  cbn. split; intros x y; cbn.
  - rewrite !(intdx_scale _ HB).
    rewrite (Stokes.intdx_inner_comm _ HS
               (gradE _ (Stokes.component B WP (Stokes.sub0 WP) x))).
    ring.
  - rewrite !(intdx_scale _ HB).
    rewrite (Stokes.intdx_inner_comm _ HS
               (gradE _ (Stokes.component B WP (Stokes.sub0 WP) x))).
    rewrite (Stokes.intdx_mul_comm _ HS
               (Stokes.component B WP (Stokes.sub1 WP) x)).
    reflexivity.
Qed.

Lemma stokes_operators_are_symmetric_witness :
  let B := Poly.backend true true true in
  let K := Stokes.poly_solver true in
  let w := Stokes.s0 B Example.store0 in
  (BackendLaws (B) ∧ Stokes.Laws (B)
   ∧ (0 : Qc) < 1) ∧
  ∃ c, Stokes.calls B (Stokes.solve B K Stokes.WP [Example.bc0] 1
                         (Coef Example.force) true (decimal 1 13)) w = [c]
       ∧ Stokes.symmetric_matrix B (Stokes.c_A B c)
       ∧ Stokes.symmetric_matrix B (Stokes.c_P B c).
Proof.
  intros B K w.
  assert (Hmu : (0 : Qc) < 1) by reflexivity.
  split; [split; [apply Poly_laws | split; [apply Poly_stokes_laws | exact Hmu]] |].
  destruct (stokes_operators_are_symmetric B K Stokes.WP [Example.bc0] 1
              (Coef Example.force) true (decimal 1 13) w
              (Poly_laws true true true) (Poly_stokes_laws true true true)
              Hmu) as (c & Hc & HA & HP).
  exists c. split; [exact Hc |]. split; [exact HA | exact HP].
Defined.

(** X17.  The Stokes system is a saddle point problem and the preconditioner
    differs from it in the pressure block only: on a mixed space with
    distinct velocity and pressure space the operator vanishes on two pure
    pressures, where the preconditioner is minus the pressure mass matrix,
    and the two agree on pure velocities. *)
Theorem stokes_pressure_block_is_zero (B : Backend) (K : Stokes.Solver B)
    (WP : Stokes.MixedFunctionSpace) (bcs : list DirichletBC) (mu : Qc)
    (f : expr) (verbose : bool) (tol : Qc) (w : Stokes.state B) :
  BackendLaws B → FieldLaws B → Stokes.Laws B →
  Stokes.sub0 WP ≠ Stokes.sub1 WP →
  0 < mu →
  ∃ c, Stokes.calls B (Stokes.solve B K WP bcs mu f verbose tol) w = [c]
       ∧ (∀ p q, Stokes.entries (Stokes.c_A B c) (zeroE B, p) (zeroE B, q)
                 = 0)
       ∧ (∀ p q, Stokes.entries (Stokes.c_P B c) (zeroE B, p) (zeroE B, q)
                 = - intdx B (mulE B p q))
       ∧ (∀ u v, Stokes.entries (Stokes.c_A B c) (u, zeroE B) (v, zeroE B)
                 = Stokes.entries (Stokes.c_P B c) (u, zeroE B) (v, zeroE B)).
Proof.
  intros HB HF HS Hne Hmu. eexists.
  split; [apply stokes_calls; exact Hmu |].
  assert (H0 : ∀ x, Stokes.component B WP (Stokes.sub0 WP) x = x.1).
  { intros x. unfold Stokes.component. rewrite decide_True by reflexivity.
    reflexivity. }
  assert (H1 : ∀ x, Stokes.component B WP (Stokes.sub1 WP) x = x.2).
  { intros x. unfold Stokes.component.
    rewrite decide_False by (intros E; apply Hne; symmetry; exact E).
    reflexivity. }
  cbn. repeat split; intros x y; cbn; rewrite !H0, !H1; cbn;
    rewrite !(intdx_scale _ HB).
  - rewrite (grad_zero _ HF), (Stokes.inner_zero_l _ HS), (Stokes.div_zero _ HS),
      !(Stokes.mul_zero_r _ HS), (intdx_zero _ HF). ring.
  - rewrite (grad_zero _ HF), (Stokes.inner_zero_l _ HS), (intdx_zero _ HF). ring.
  - rewrite !(Stokes.mul_zero_l _ HS), (intdx_zero _ HF). ring.
Qed.

Lemma stokes_pressure_block_is_zero_witness :
  let B := Poly.backend true true true in
  let K := Stokes.poly_solver true in
  let w := Stokes.s0 B Example.store0 in
  (BackendLaws B ∧ FieldLaws B ∧ Stokes.Laws B
   ∧ Stokes.sub0 Stokes.WP ≠ Stokes.sub1 Stokes.WP ∧ (0 : Qc) < 1) ∧
  ∃ c, Stokes.calls B (Stokes.solve B K Stokes.WP [Example.bc0] 1
                         (Coef Example.force) true (decimal 1 13)) w = [c]
       ∧ (∀ p q, Stokes.entries (Stokes.c_A B c) (zeroE B, p) (zeroE B, q)
                 = 0)
       ∧ (∀ p q, Stokes.entries (Stokes.c_P B c) (zeroE B, p) (zeroE B, q)
                 = - intdx B (mulE B p q))
       ∧ (∀ u v, Stokes.entries (Stokes.c_A B c) (u, zeroE B) (v, zeroE B)
                 = Stokes.entries (Stokes.c_P B c) (u, zeroE B) (v, zeroE B)).
Proof.
  intros B K w.
  assert (Hmu : (0 : Qc) < 1) by reflexivity.
  assert (Hne : Stokes.sub0 Stokes.WP ≠ Stokes.sub1 Stokes.WP)
    by (intros E; discriminate E).
  split.
  { split; [apply Poly_laws |]. split; [apply Poly_field_laws |].
    split; [apply Poly_stokes_laws |]. split; [exact Hne | exact Hmu]. }
  destruct (stokes_pressure_block_is_zero B K Stokes.WP [Example.bc0] 1
              (Coef Example.force) true (decimal 1 13) w
              (Poly_laws true true true) (Poly_field_laws true true true)
              (Poly_stokes_laws true true true) Hne Hmu)
    as (c & Hc & H1 & H2 & H3).
  exists c. split; [exact Hc |]. split; [exact H1 |]. split; [exact H2 |].
  exact H3.
Defined.

(** X18.  [solve] returns its solution in a new function and leaves every
    function that existed before as it was, the force included.  The two
    sub-functions it returns are the two blocks of that new function; the
    solver starts from the zero vector, and the blocks hold its last
    iterate, also when the call ends in an error. *)
Theorem stokes_solution_is_a_new_function (B : Backend) (K : Stokes.Solver B)
    (WP : Stokes.MixedFunctionSpace) (bcs : list DirichletBC) (mu : Qc)
    (f : expr) (verbose : bool) (tol : Qc) (w : Stokes.state B) :
  let σ := Stokes.s_store B w in
  let r := Stokes.solve B K WP bcs mu f verbose tol w in
  let σ' := Stokes.s_store B r.2 in
  0 < mu →
  (∀ l, l ∈ dom σ → σ' !! l = σ !! l)
  ∧ ∃ u p c,
      (r.1 = Ok (u, p) ∨ r.1 = Raise RuntimeError)
      ∧ function_space u = Stokes.sub0 WP
      ∧ function_space p = Stokes.sub1 WP
      ∧ (fn_loc u ∉ dom σ) ∧ (fn_loc p ∉ dom σ) ∧ fn_loc u ≠ fn_loc p
      ∧ Stokes.calls B (Stokes.solve B K WP bcs mu f verbose tol) w = [c]
      ∧ Stokes.c_guess B c = (zeroE B, zeroE B)
      ∧ (value B σ' u, value B σ' p)
        = (Stokes.krylov_solve B K (Stokes.c_method B c)
             (Stokes.c_preconditioner B c) (Stokes.c_parameters B c)
             (Stokes.c_report B c) (Stokes.c_A B c) (Stokes.c_P B c)
             (Stokes.c_guess B c) (Stokes.c_b B c)).1.
Proof.
  intros σ r σ' Hmu. subst r σ' σ.
  pose proof (stokes_fresh_blocks B w) as Hfresh. cbv zeta in Hfresh.
  destruct Hfresh as (H0 & H1 & Hne).
  pose proof (stokes_store B K WP bcs mu f verbose tol w Hmu) as Hst.
  pose proof (stokes_outcome B K WP bcs mu f verbose tol w Hmu) as Hout.
  pose proof (stokes_calls B K WP bcs mu f verbose tol w Hmu) as Hcalls.
  cbv zeta in Hst, Hout, Hcalls. rewrite Hst, Hout, Hcalls. clear Hst Hout Hcalls.
  split.
  { intros l Hl.
    rewrite !lookup_insert_ne by (intros E; subst l; contradiction).
    reflexivity. }
  eexists (mkFunction _ _), (mkFunction _ _), _.
  split.
  { match goal with |- context [ if ?x then _ else _ ] => destruct x end;
      [left; reflexivity | right; reflexivity]. }
  split; [reflexivity |]. split; [reflexivity |].
  split; [exact H0 |]. split; [exact H1 |]. split; [exact Hne |].
  split; [reflexivity |].
  split; [reflexivity |].
  unfold value. cbn [fn_loc Stokes.c_method Stokes.c_preconditioner
                       Stokes.c_parameters Stokes.c_report Stokes.c_A
                       Stokes.c_P Stokes.c_guess Stokes.c_b].
  rewrite lookup_insert_ne by (intros E; apply Hne; symmetry; exact E).
  rewrite !lookup_insert_eq. cbn [default].
  match goal with |- _ = ?s.1 => destruct s.1; reflexivity end.
Qed.

Lemma stokes_solution_is_a_new_function_witness :
  let B := Poly.backend true true false in
  let K := Stokes.poly_solver false in
  let w := Stokes.s0 B Example.store0 in
  let σ := Stokes.s_store B w in
  let r := Stokes.solve B K Stokes.WP [Example.bc0] 1 (Coef Example.force) true
             (decimal 1 13) w in
  let σ' := Stokes.s_store B r.2 in
  (0 : Qc) < 1
  ∧ (∀ l, l ∈ dom σ → σ' !! l = σ !! l)
  ∧ ∃ u p c,
      (r.1 = Ok (u, p) ∨ r.1 = Raise RuntimeError)
      ∧ function_space u = Stokes.sub0 Stokes.WP
      ∧ function_space p = Stokes.sub1 Stokes.WP
      ∧ (fn_loc u ∉ dom σ) ∧ (fn_loc p ∉ dom σ) ∧ fn_loc u ≠ fn_loc p
      ∧ Stokes.calls B (Stokes.solve B K Stokes.WP [Example.bc0] 1
                          (Coef Example.force) true (decimal 1 13)) w = [c]
      ∧ Stokes.c_guess B c = (zeroE B, zeroE B)
      ∧ (value B σ' u, value B σ' p)
        = (Stokes.krylov_solve B K (Stokes.c_method B c)
             (Stokes.c_preconditioner B c) (Stokes.c_parameters B c)
             (Stokes.c_report B c) (Stokes.c_A B c) (Stokes.c_P B c)
             (Stokes.c_guess B c) (Stokes.c_b B c)).1.
Proof.
  intros B K w σ r σ'.
  assert (Hmu : (0 : Qc) < 1) by reflexivity.
  split; [exact Hmu |].
  exact (stokes_solution_is_a_new_function B K Stokes.WP [Example.bc0] 1
           (Coef Example.force) true (decimal 1 13) w Hmu).
Defined.


